(** * noisysockets/util, package triemap: a longest-prefix-match trie map

    A shallow embedding of [triemap/triemap.go] together with the parts of
    Go's [net/netip] it calls, and the properties of the package's
    specification stated and proved (or refuted) against that embedding.

    Conventions of the embedding.
    - Go [int], [uint8], [uint64] and the 128-bit integers are [Z].
    - A [*trieNode] is a value of [trieNode]: [Nil] is the nil pointer and
      [Node c0 c1 v] a pointer to a node that its parent owns alone (the
      program never shares a node between two parents).
    - A Go map is a [gmap]; a nil map reads like the empty one.  The
      program writes to [keyRefs] before allocating it only where a node
      already holds a value, that is, after an earlier [insert] has
      allocated it, so no write meets a nil map.
    - Mutation through a pointer is a functional update of the path from
      the root; the ancestor stack of [remove] is a zipper.
    - The lock of the facade is not modelled: every operation runs to
      completion under it. *)

From Stdlib Require Import ZArith Lia Bool List String.
From stdpp Require Import base option list gmap strings.

Local Open Scope Z_scope.

(** ** net/netip, as far as the trie uses it *)

Module netip.

(** The zone pointer [z] of an [Addr]: [z0] for the zero address, the
    sentinels [z4] and [z6noz], or an interned IPv6 zone name. *)
Inductive zone : Type :=
| z0
| z4
| z6noz
| z6zone (name : string).

#[global] Instance zone_eq_dec : EqDecision zone.
Proof. solve_decision. Defined.

(** [Addr] is netip's struct: the 128-bit [addr] (an IPv4 address is
    kept in IPv4-mapped form, [::ffff:a.b.c.d]) and the zone pointer. *)
Record Addr : Type := mkAddr { addr : Z; z : zone }.

#[global] Instance Addr_eq_dec : EqDecision Addr.
Proof. solve_decision. Defined.

Definition lo (a : Addr) : Z := Z.land (addr a) (Z.ones 64).
Definition hi (a : Addr) : Z := Z.land (Z.shiftr (addr a) 64) (Z.ones 64).

Definition AddrFrom4 (a b c d : Z) : Addr :=
  mkAddr (Z.lor 0xffff00000000
            (Z.lor (Z.shiftl a 24) (Z.lor (Z.shiftl b 16) (Z.lor (Z.shiftl c 8) d))))
         z4.

(** [AddrFrom16] on the sixteen bytes that denote [v] in big-endian order. *)
Definition AddrFrom16 (v : Z) : Addr := mkAddr v z6noz.

Definition Is4 (a : Addr) : bool := bool_decide (z a = z4).

Definition Is6 (a : Addr) : bool :=
  negb (bool_decide (z a = z0)) && negb (bool_decide (z a = z4)).

Definition Is4In6 (a : Addr) : bool :=
  Is6 a && (hi a =? 0) && (Z.shiftr (lo a) 32 =? 0xffff).

Definition Unmap (a : Addr) : Addr :=
  if Is4In6 a then mkAddr (addr a) z4 else a.

Definition BitLen (a : Addr) : Z :=
  match z a with
  | z0 => 0
  | z4 => 32
  | _ => 128
  end.

Definition hasZone (a : Addr) : bool :=
  match z a with
  | z6zone _ => true
  | _ => false
  end.

Definition withoutZone (a : Addr) : Addr :=
  if hasZone a then mkAddr (addr a) z6noz else a.

(** [As4]: the four bytes, read as the big-endian 32-bit number they
    denote.  Go panics unless the address is IPv4 or IPv4-mapped; the
    trie calls it only behind [Unmap().Is4()]. *)
Definition As4 (a : Addr) : Z := Z.land (lo a) (Z.ones 32).

(** [As16]: the sixteen bytes, as the two big-endian 64-bit halves
    [ip6[:8]] and [ip6[8:]]. *)
Definition As16_hi (a : Addr) : Z := hi a.
Definition As16_lo (a : Addr) : Z := lo a.

Record Prefix : Type := mkPrefix { ip : Addr; bitsPlusOne : Z }.

#[global] Instance Prefix_eq_dec : EqDecision Prefix.
Proof. solve_decision. Defined.

Definition PrefixFrom (a : Addr) (bits : Z) : Prefix :=
  mkPrefix (withoutZone a)
           (if negb (bool_decide (z a = z0)) && (0 <=? bits) && (bits <=? BitLen a)
            then bits + 1 else 0).

Definition Bits (p : Prefix) : Z := bitsPlusOne p - 1.

Definition IsValid (p : Prefix) : bool := 0 <? bitsPlusOne p.

(** [mask6 n]: the 128-bit mask with the top [n] bits set. *)
Definition mask6 (n : Z) : Z := Z.shiftl (Z.ones n) (128 - n).

Definition Contains (p : Prefix) (a : Addr) : bool :=
  if negb (IsValid p) || hasZone a then false
  else
    let f1 := BitLen (ip p) in
    let f2 := BitLen a in
    if (f1 =? 0) || (f2 =? 0) || negb (f1 =? f2) then false
    else if Is4 a then
      Z.land (Z.shiftr (Z.lxor (lo a) (lo (ip p))) (Z.land (32 - Bits p) 63))
             (Z.ones 32) =? 0
    else
      Z.land (Z.lxor (addr a) (addr (ip p))) (mask6 (Bits p)) =? 0.

(** What the constructors of netip guarantee of every [Prefix] value:
    [bitsPlusOne] is an [uint8] that is zero (the invalid prefix) or at
    most one more than the width of the address, which then is not the
    zero address; the zone is stripped. *)
Definition prefix_inv (p : Prefix) : bool :=
  (0 <=? bitsPlusOne p) && (bitsPlusOne p <=? BitLen (ip p) + 1)
  && (negb (bool_decide (z (ip p) = z0)) || (bitsPlusOne p =? 0))
  && negb (hasZone (ip p)).

End netip.

(** ** The 128-bit integer *)

Module uint128.

(** Modelled from the spec: package [uint128] of this repository is not
    among the sources.  The specification describes its type as an
    unsigned integer wide enough for the larger family (128 bits). *)
Definition Uint128 : Type := Z.

(** Modelled from the spec: [uint128.From64], the integer with the given
    low 64 bits and a zero high half. *)
Definition From64 (v : Z) : Uint128 := v.

(** Modelled from the spec: [uint128.New lo hi], the integer built from
    its two 64-bit halves. *)
Definition New (lo hi : Z) : Uint128 := Z.lor (Z.shiftl hi 64) lo.

(** Modelled from the spec: [Uint128.Bit], the bit test, indexed from the
    least significant bit (index 0) to the most significant (index
    total-bits - 1).  Under the precondition [prefix_ok] of the trie it
    is called at indices 0..127 only. *)
Definition Bit (u : Uint128) (i : Z) : bool := Z.testbit u i.

End uint128.

(** ** Package triemap *)

Module triemap.
Import netip.

(** *** The core: prefixes to integer keys *)

Record nodeValue : Type := mkValue { prefix : Prefix; key : Z }.

#[global] Instance nodeValue_eq_dec : EqDecision nodeValue.
Proof. solve_decision. Defined.

Inductive trieNode : Type :=
| Nil
| Node (child0 child1 : trieNode) (value : option nodeValue).

Record trieMap : Type := mkTrie {
  ipv4Root : trieNode;
  ipv6Root : trieNode;
  keyRefs : gmap Z Z
}.

Definition child (b : bool) (n : trieNode) : trieNode :=
  match n with
  | Nil => Nil
  | Node c0 c1 _ => if b then c1 else c0
  end.

Definition value_of (n : trieNode) : option nodeValue :=
  match n with
  | Nil => None
  | Node _ _ v => v
  end.

Definition set_child (b : bool) (n c : trieNode) : trieNode :=
  match n with
  | Nil => Nil
  | Node c0 c1 v => if b then Node c0 c v else Node c c1 v
  end.

Definition set_value (n : trieNode) (v : option nodeValue) : trieNode :=
  match n with
  | Nil => Nil
  | Node c0 c1 _ => Node c0 c1 v
  end.

(** [node.child0 == nil && node.child1 == nil && node.value == nil] *)
Definition is_bare (n : trieNode) : bool :=
  match n with
  | Node Nil Nil None => true
  | _ => false
  end.

(** [&trieNode{}] where the pointer is nil, the pointer itself otherwise. *)
Definition or_new (n : trieNode) : trieNode :=
  match n with
  | Nil => Node Nil Nil None
  | _ => n
  end.

Definition is4 (a : Addr) : bool := Is4 (Unmap a).

Definition getRootNode (t : trieMap) (a : Addr) : trieNode :=
  if is4 a then ipv4Root t else ipv6Root t.

Definition addrToUint128 (a : Addr) : uint128.Uint128 * Z :=
  if is4 a then (uint128.From64 (As4 a), 32)
  else (uint128.New (As16_lo a) (As16_hi a), 128).

(** The indices [i] of [for i := totalBits-1; i >= totalBits-bits; i--],
    in the order the loop visits them. *)
Definition loop_indices (totalBits bits : Z) : list Z :=
  map (fun j => totalBits - 1 - Z.of_nat j) (seq 0 (Z.to_nat bits)).

(** The branch taken at each iteration of the walk of [insert] and
    [remove]: [ip.Bit(i)] for the loop's indices. *)
Definition path_of (p : Prefix) : list bool :=
  let '(u, totalBits) := addrToUint128 (ip p) in
  map (uint128.Bit u) (loop_indices totalBits (Bits p)).

(** The branches of [get]: every bit of the address, most significant
    first. *)
Definition path_of_addr (a : Addr) : list bool :=
  let '(u, totalBits) := addrToUint128 a in
  map (uint128.Bit u) (loop_indices totalBits totalBits).

(** **** get *)

(** The three results the loop of [get] maintains. *)
Record best : Type := mkBest {
  longestMatchLength : Z;
  best_key : Z;
  best_contains : bool
}.

(** Lines 170-174: the check at the root, which does not compare
    lengths. *)
Definition check_root (a : Addr) (curr : trieNode) (b : best) : best :=
  match value_of curr with
  | Some nv =>
      if Contains (prefix nv) a
      then mkBest (Bits (prefix nv)) (key nv) true
      else b
  | None => b
  end.

(** Lines 193-199: the check at a node below the root. *)
Definition check_node (a : Addr) (curr : trieNode) (b : best) : best :=
  match value_of curr with
  | Some nv =>
      if Contains (prefix nv) a && (longestMatchLength b <? Bits (prefix nv))
      then mkBest (Bits (prefix nv)) (key nv) true
      else b
  | None => b
  end.

(** Lines 177-200: one iteration per remaining branch; a nil child is
    the [break]. *)
Fixpoint get_loop (a : Addr) (path : list bool) (curr : trieNode) (b : best) : best :=
  match path with
  | [] => b
  | bit :: rest =>
      match child bit curr with
      | Nil => b
      | next => get_loop a rest next (check_node a next b)
      end
  end.

Definition get (t : trieMap) (a : Addr) : Z * bool :=
  match getRootNode t a with
  | Nil => (-1, false)
  | root =>
      let b := get_loop a (path_of_addr a) root
                        (check_root a root (mkBest (-1) 0 false)) in
      (best_key b, best_contains b)
  end.

(** **** insert *)

(** Lines 220-232 and 242: walk the branches, allocating the missing
    children, and store the value at the node reached. *)
Fixpoint insert_walk (path : list bool) (nv : nodeValue) (curr : trieNode) : trieNode :=
  match path with
  | [] => set_value curr (Some nv)
  | bit :: rest =>
      set_child bit curr (insert_walk rest nv (or_new (child bit curr)))
  end.

(** The node a walk without allocation ends at ([Nil] when it leaves
    the trie). *)
Fixpoint descend (path : list bool) (curr : trieNode) : trieNode :=
  match path with
  | [] => curr
  | bit :: rest => descend rest (child bit curr)
  end.

Definition refs_get (m : gmap Z Z) (k : Z) : Z := default 0 (m !! k).
Definition refs_dec (m : gmap Z Z) (k : Z) : gmap Z Z := <[k := refs_get m k - 1]> m.
Definition refs_inc (m : gmap Z Z) (k : Z) : gmap Z Z := <[k := refs_get m k + 1]> m.

(** The root of the family of [a] and the reference counts, as left by
    an operation that updated them in place. *)
Definition set_root (t : trieMap) (a : Addr) (root : trieNode) (refs : gmap Z Z) : trieMap :=
  if is4 a then mkTrie root (ipv6Root t) refs
  else mkTrie (ipv4Root t) root refs.

Definition insert (t : trieMap) (p : Prefix) (k : Z) : trieMap :=
  let root := or_new (getRootNode t (ip p)) in
  let path := path_of p in
  let refs1 :=
    match value_of (descend path root) with
    | Some old => refs_dec (keyRefs t) (key old)
    | None => keyRefs t
    end in
  let refs2 := refs_inc refs1 k in
  set_root t (ip p) (insert_walk path (mkValue p k) root) refs2.

(** **** remove and prune *)

(** An entry of the ancestor stack: the ancestor and the branch the
    walk took below it.  The node below an entry is the child on that
    branch, so [parent.child0 == node] holds exactly when the branch is
    the 0 branch. *)
Definition frame : Type := (bool * trieNode)%type.

(** What the ancestors look like once the node below them is [n]. *)
Fixpoint plug (stack : list frame) (n : trieNode) : trieNode :=
  match stack with
  | [] => n
  | (bit, parent) :: rest => plug rest (set_child bit parent n)
  end.

(** Lines 321-337.  [stack] holds the ancestors of [n], nearest first;
    [n] is [stack[i]] of the source.  The result is the root. *)
Fixpoint prune (stack : list frame) (n : trieNode) : trieNode :=
  if is_bare n then
    match stack with
    | [] => n
    | (bit, parent) :: rest => prune rest (set_child bit parent Nil)
    end
  else plug stack n.

(** Lines 255-265: [None] is the early [return -1, false]. *)
Fixpoint remove_walk (path : list bool) (curr : trieNode) (stack : list frame)
  : option (list frame * trieNode) :=
  match path with
  | [] => Some (stack, curr)
  | bit :: rest =>
      match child bit curr with
      | Nil => None
      | next => remove_walk rest next ((bit, curr) :: stack)
      end
  end.

Definition refs_release (m : gmap Z Z) (k : Z) : gmap Z Z :=
  let m' := refs_dec m k in
  if refs_get m' k =? 0 then delete k m' else m'.

Definition remove (t : trieMap) (p : Prefix) : trieMap * (Z * bool) :=
  match getRootNode t (ip p) with
  | Nil => (t, (-1, false))
  | root =>
      match remove_walk (path_of p) root [] with
      | None => (t, (-1, false))
      | Some (stack, curr) =>
          match value_of curr with
          | Some nv =>
              if bool_decide (prefix nv = p) then
                (set_root t (ip p) (prune stack (set_value curr None))
                          (refs_release (keyRefs t) (key nv)),
                 (key nv, true))
              else (t, (-1, false))
          | None => (t, (-1, false))
          end
      end
  end.

(** **** removeAll *)

Definition push_if_present (n : trieNode) (stack : list trieNode) : list trieNode :=
  match n with
  | Nil => stack
  | _ => n :: stack
  end.

(** Lines 292-304.  The head of [stack] is the top of the source's
    stack; [fuel] bounds the iterations and [removeAll] passes the
    number of nodes, which is exactly how many there are. *)
Fixpoint collect_loop (fuel : nat) (k : Z) (stack : list trieNode) (prefixes : list Prefix)
  : list Prefix :=
  match fuel with
  | O => prefixes
  | S fuel' =>
      match stack with
      | [] => prefixes
      | curr :: stack' =>
          let prefixes' :=
            match value_of curr with
            | Some nv => if key nv =? k then prefixes ++ [prefix nv] else prefixes
            | None => prefixes
            end in
          collect_loop fuel' k
            (push_if_present (child true curr) (push_if_present (child false curr) stack'))
            prefixes'
      end
  end.

Fixpoint nodes (n : trieNode) : nat :=
  match n with
  | Nil => O
  | Node c0 c1 _ => S (nodes c0 + nodes c1)
  end.

Definition removeAll (t : trieMap) (k : Z) : trieMap :=
  let stack := push_if_present (ipv6Root t) (push_if_present (ipv4Root t) []) in
  let prefixes := collect_loop (nodes (ipv4Root t) + nodes (ipv6Root t)) k stack [] in
  fold_left (fun t' p => fst (remove t' p)) prefixes t.

(** *** Vocabulary of the properties *)

(** The value stored at the node a walk along [path] reaches, if any. *)
Definition value_at (path : list bool) (n : trieNode) : option nodeValue :=
  value_of (descend path n).

(** Every (prefix, key) pair stored below a pointer. *)
Fixpoint bindings (n : trieNode) : list nodeValue :=
  match n with
  | Nil => []
  | Node c0 c1 v =>
      match v with
      | Some nv => [nv]
      | None => []
      end ++ bindings c0 ++ bindings c1
  end.

Definition all_bindings (t : trieMap) : list nodeValue :=
  bindings (ipv4Root t) ++ bindings (ipv6Root t).

(** [stored t nv]: some node of either family holds [nv]; its prefix is
    then a currently inserted prefix. *)
Definition stored (t : trieMap) (nv : nodeValue) : Prop := nv ∈ all_bindings t.

(** No node reachable from the pointer, the node it points to included,
    is without value and without children. *)
Fixpoint no_bare (n : trieNode) : Prop :=
  match n with
  | Nil => True
  | Node c0 c1 v => is_bare (Node c0 c1 v) = false /\ no_bare c0 /\ no_bare c1
  end.

(** The same of every node strictly below the one pointed to. *)
Definition no_bare_below (n : trieNode) : Prop :=
  no_bare (child false n) /\ no_bare (child true n).

(** The precondition of the package on a prefix: a value netip can
    build, whose length does not exceed the width under which the trie
    files its address. *)
Definition prefix_ok (p : Prefix) : bool :=
  prefix_inv p && (Bits p <=? snd (addrToUint128 (ip p))).

(** Every value below the root of family [f] sits where a walk for its
    own prefix ends, and its prefix meets the precondition. *)
Definition placed (f : bool) (root : trieNode) : Prop :=
  forall path nv,
    value_at path root = Some nv ->
    is4 (ip (prefix nv)) = f /\ path_of (prefix nv) = path /\
    prefix_ok (prefix nv) = true.

Definition trie_wf (t : trieMap) : Prop :=
  placed true (ipv4Root t) /\ placed false (ipv6Root t).

Definition roots_pruned (t : trieMap) : Prop :=
  no_bare_below (ipv4Root t) /\ no_bare_below (ipv6Root t).

(** A recursive account of what [remove] leaves of the trie: the value
    at the end of [path] cleared and, on the way back, every child that
    has become bare detached from its parent. *)
Definition detach (n : trieNode) : trieNode :=
  if is_bare n then Nil else n.

Fixpoint clear_at (path : list bool) (curr : trieNode) : trieNode :=
  match path with
  | [] => set_value curr None
  | bit :: rest => set_child bit curr (detach (clear_at rest (child bit curr)))
  end.

(** The prefixes below a pointer whose value carries key [k], in the
    order the traversal of [removeAll] meets them: the node, then the
    subtree of [child1], then that of [child0]. *)
Fixpoint matching (k : Z) (n : trieNode) : list Prefix :=
  match n with
  | Nil => []
  | Node c0 c1 v =>
      match v with
      | Some nv => if key nv =? k then [prefix nv] else []
      | None => []
      end ++ matching k c1 ++ matching k c0
  end.

Definition stack_nodes (stack : list trieNode) : nat :=
  foldr (fun n acc => (nodes n + acc)%nat) O stack.

(** How many of the values in [l] carry key [k]. *)
Definition key_count (k : Z) (l : list nodeValue) : Z :=
  Z.of_nat (length (filter (fun nv => key nv = k) l)).

(** One if the value carries key [k], zero otherwise. *)
Definition hit (k : Z) (o : option nodeValue) : Z :=
  match o with
  | Some nv => if decide (key nv = k) then 1 else 0
  | None => 0
  end.

(** The reference count of every key is the number of nodes that hold
    it. *)
Definition refs_ok (t : trieMap) : Prop :=
  forall k, refs_get (keyRefs t) k = key_count k (all_bindings t).

(** What [get] can see of a node for address [a]: its value, when the
    prefix of the value contains [a]. *)
Definition relevant (a : Addr) (o : option nodeValue) : option nodeValue :=
  match o with
  | Some nv => if Contains (prefix nv) a then Some nv else None
  | None => None
  end.

(** *** The facade: prefixes to values of type [V] *)

Section Facade.

Context {V : Type} `{Countable V}.

(** The zero value of [V], which reading a missing key of a Go map
    yields. *)
Variable zero : V.

Record TrieMap : Type := mkMap {
  trie : trieMap;
  keyToValue : gmap Z V;
  valueToKey : gmap V Z
}.

Definition New : TrieMap := mkMap (mkTrie Nil Nil ∅) ∅ ∅.

Definition Insert (t : TrieMap) (p : Prefix) (v : V) : TrieMap :=
  match valueToKey t !! v with
  | Some k => mkMap (insert (trie t) p k) (keyToValue t) (valueToKey t)
  | None =>
      let k := Z.of_nat (size (keyToValue t)) in
      mkMap (insert (trie t) p k) (<[k := v]> (keyToValue t)) (<[v := k]> (valueToKey t))
  end.

Definition Get (t : TrieMap) (a : Addr) : V * bool :=
  let '(k, contains) := get (trie t) a in
  if contains then (default zero (keyToValue t !! k), true) else (zero, false).

Definition Remove (t : TrieMap) (p : Prefix) : TrieMap * bool :=
  let '(tr, (k, removed)) := remove (trie t) p in
  if removed && (refs_get (keyRefs tr) k =? 0) then
    let kv := delete k (keyToValue t) in
    let vk := delete (default zero (kv !! k)) (valueToKey t) in
    (mkMap tr kv vk, removed)
  else (mkMap tr (keyToValue t) (valueToKey t), removed).

Definition RemoveValue (t : TrieMap) (v : V) : TrieMap :=
  match valueToKey t !! v with
  | None => t
  | Some k =>
      mkMap (removeAll (trie t) k) (delete k (keyToValue t)) (delete v (valueToKey t))
  end.

(** [root == nil || (root.child0 == nil && root.child1 == nil &&
    root.value == nil)] *)
Definition root_unused (root : trieNode) : bool :=
  match root with
  | Nil => true
  | _ => is_bare root
  end.

Definition Empty (t : TrieMap) : bool :=
  root_unused (ipv4Root (trie t)) && root_unused (ipv6Root (trie t)).

(** The states of the map: what a program reaches from [New] by calls
    whose prefixes meet the precondition. *)
Inductive reachable : TrieMap -> Prop :=
| reach_New : reachable New
| reach_Insert t p v :
    reachable t -> prefix_ok p = true -> reachable (Insert t p v)
| reach_Remove t p :
    reachable t -> prefix_ok p = true -> reachable (fst (Remove t p))
| reach_RemoveValue t v :
    reachable t -> reachable (RemoveValue t v).

(** [bound t p v]: a node holds prefix [p] with a key that the registry
    translates to [v]. *)
Definition bound (t : TrieMap) (p : Prefix) (v : V) : Prop :=
  exists k, stored (trie t) (mkValue p k) /\ keyToValue t !! k = Some v.

(** The root of a family is absent, or present with no value and no
    children. *)
Definition root_absent_or_bare (root : trieNode) : Prop :=
  root = Nil \/
  (root <> Nil /\ value_of root = None /\
   child false root = Nil /\ child true root = Nil).

End Facade.

End triemap.

(** ** Package address *)

Module address.
Import netip.

(** Lines 28-36.  A nil slice and an empty slice are both the empty
    list. *)
Definition filterByIPv4 (addrs : list Addr) : list Addr :=
  fold_left (fun filteredAddrs a => if Is4 a then filteredAddrs ++ [a] else filteredAddrs)
            addrs [].

(** Lines 38-46. *)
Definition filterByIPv6 (addrs : list Addr) : list Addr :=
  fold_left (fun filtered a => if Is6 a then filtered ++ [a] else filtered)
            addrs [].

(** Lines 16-26. *)
Definition FilterByNetwork (addrs : list Addr) (network : string) : list Addr :=
  if String.eqb network "ip" then addrs
  else if String.eqb network "ip4" then filterByIPv4 addrs
  else if String.eqb network "ip6" then filterByIPv6 addrs
  else [].

End address.

(** ** Package cidr *)

Module cidr.
Import netip.

Inductive error : Type :=
| ErrHostNumberOutOfRange
| ErrRandomSource.

(** [netip.AddrFrom4] on the four bytes that denote [x] in big-endian
    order. *)
Definition AddrFrom4_be (x : Z) : Addr := mkAddr (Z.lor 0xffff00000000 x) z4.

(** The zero [Addr], [netip.Addr{}]. *)
Definition AddrZero : Addr := mkAddr 0 z0.

(** [Generate], lines 12-27 of generate_ula.go.  [random] is what
    [rand.Read] put into the five bytes [ipv6Addr[1:6]], read as a
    big-endian number, or [None] when it returned an error. *)
Definition Generate (random : option Z) : Prefix * option error :=
  match random with
  | None => (mkPrefix AddrZero 0, Some ErrRandomSource)
  | Some r =>
      (PrefixFrom (AddrFrom16 (Z.lor (Z.shiftl 0xfd 120) (Z.shiftl r 80))) 48, None)
  end.

(** The number that the sixteen bytes [b] of [Host] denote after
    [copy(b[16-len(s):], s)] for [s = a.AsSlice()]: nothing is copied for
    the zero address, four bytes for IPv4, sixteen otherwise. *)
Definition AsSlice_padded (a : Addr) : Z :=
  match z a with
  | z0 => 0
  | z4 => As4 a
  | _ => Z.lor (Z.shiftl (As16_hi a) 64) (As16_lo a)
  end.

(** Go's conversion [uint64(num)] of an [int]. *)
Definition uint64 (num : Z) : Z := num mod 2 ^ 64.

Section Host.

(** Package [uint128] is not among the sources.  Its values are the
    numbers they denote, so [FromBytesBE] and [BytesBE] are the identity
    on the big-endian reading of sixteen bytes and [Hi] is the number
    shifted right by 64; its addition is a parameter, of which the
    properties below assume only that it adds when the sum fits 128
    bits. *)
Variable Add : Z -> Z -> Z.

(** Lines 25-47 of host_number.go. *)
Definition Host (p : Prefix) (num : Z) : Addr * option error :=
  let intVal := Add (AsSlice_padded (ip p)) (uint128.From64 (uint64 num)) in
  let a :=
    if Z.shiftr intVal 64 =? 0
    then AddrFrom4_be (Z.land intVal (Z.ones 32))
    else AddrFrom16 intVal in
  if Contains p a then (a, None)
  else (AddrZero, Some ErrHostNumberOutOfRange).

End Host.

End cidr.

(** ** Package waitpool *)

Module waitpool.

(** Of a [WaitPool] the counter and the bound; the [sync.Pool] of items,
    the lock and the condition variable are not modelled.  An operation
    is the step it takes on the counter once it goes through: [Get]
    checks and increments under the lock, [Put] decrements atomically.
    A history of concurrent calls is read as the sequence of these
    steps in the order of their [count.Add]: between the check and the
    increment of a [Get] only [Put]s can step in, since other [Get]s are
    kept out by the lock. *)
Record WaitPool : Type := mkPool { count : Z; max : Z }.

(** Wrap-around of [atomic.Int32] and the conversion [uint32(...)]. *)
Definition int32 (x : Z) : Z := (x + 2 ^ 31) mod 2 ^ 32 - 2 ^ 31.
Definition uint32 (x : Z) : Z := x mod 2 ^ 32.

Definition New (max : Z) : WaitPool := mkPool 0 max.

(** Lines 59-69: [None] while the caller waits in the loop of lines
    62-64, otherwise the pool after the caller has left with an item. *)
Definition Get (p : WaitPool) : option WaitPool :=
  if max p =? 0 then Some p
  else if max p <=? uint32 (count p) then None
  else Some (mkPool (int32 (count p + 1)) (max p)).

(** Lines 72-79. *)
Definition Put (p : WaitPool) : WaitPool :=
  if max p =? 0 then p
  else mkPool (int32 (count p - 1)) (max p).

(** Lines 82-84. *)
Definition Count (p : WaitPool) : Z := count p.

Inductive call : Type :=
| CallGet
| CallPut.

(** A sequence of calls, each gone through; [None] when a [Get] of the
    sequence has to wait. *)
Fixpoint run (calls : list call) (p : WaitPool) : option WaitPool :=
  match calls with
  | [] => Some p
  | CallGet :: rest =>
      match Get p with
      | Some p' => run rest p'
      | None => None
      end
  | CallPut :: rest => run rest (Put p)
  end.

(** Every [Put] of the sequence returns an item that an earlier [Get]
    handed out and that has not been returned yet; [n] items are out at
    the start. *)
Fixpoint paired (n : Z) (calls : list call) : bool :=
  match calls with
  | [] => true
  | CallGet :: rest => paired (n + 1) rest
  | CallPut :: rest => (0 <? n) && paired (n - 1) rest
  end.

(** The items out after the sequence: the [Get]s less the [Put]s. *)
Fixpoint in_use (calls : list call) : Z :=
  match calls with
  | [] => 0
  | CallGet :: rest => 1 + in_use rest
  | CallPut :: rest => in_use rest - 1
  end.

End waitpool.

(** ** Concrete prefixes, addresses and maps used in the examples *)

Module scenarios.
Import netip triemap.

Definition v4 (a b c d bits : Z) : Prefix := PrefixFrom (AddrFrom4 a b c d) bits.

Definition net10 : Prefix := v4 10 0 0 0 8.
Definition net11 : Prefix := v4 11 0 0 0 8.
Definition net12 : Prefix := v4 12 0 0 0 8.
Definition host10 : Addr := AddrFrom4 10 0 0 1.
Definition host11 : Addr := AddrFrom4 11 0 0 1.

(** [192.95.5.64/27] and [192.95.5.65/27], as in the package's tests. *)
Definition net64 : Prefix := v4 192 95 5 64 27.
Definition net65 : Prefix := v4 192 95 5 65 27.


Definition fresh : TrieMap (V := string) := New.

Definition va : string := "a".
Definition vb : string := "b".
Definition vc : string := "c".
Definition vx : string := "x".

(** The zero value of Go's [string]. *)
Definition vzero : string := EmptyString.

Definition Remove' (t : TrieMap (V := string)) (p : Prefix) : TrieMap (V := string) :=
  fst (Remove vzero t p).

(** One route, [10.0.0.0/8] bound to ["a"], and what is left once it is
    removed again. *)
Definition one_route : TrieMap (V := string) := Insert fresh net10 va.
Definition emptied : TrieMap (V := string) := Remove' one_route net10.
Definition emptied_by_value : TrieMap (V := string) := RemoveValue one_route va.

(** [52.93.127.172/31] and, inside it, [52.93.127.173/32]. *)
Definition net172 : Prefix := v4 52 93 127 172 31.
Definition net173 : Prefix := v4 52 93 127 173 32.
Definition host173 : Addr := AddrFrom4 52 93 127 173.
Definition nested : TrieMap (V := string) :=
  Insert (Insert fresh net172 va) net173 vb.

(** The route of [one_route] rebound to ["b"]. *)
Definition replaced : TrieMap (V := string) := Insert one_route net10 vb.

(** [::/0] and [10.0.0.0/8] as the routes, and the IPv4-mapped address
    [::ffff:10.0.0.1]. *)
Definition all_ipv6 : Prefix := PrefixFrom (AddrFrom16 0) 0.
Definition mapped_host10 : Addr := AddrFrom16 0xffff0a000001.
Definition both_families : TrieMap (V := string) := Insert one_route all_ipv6 vb.


(** Two values, the first evicted, then a third value inserted. *)
Definition two_routes : TrieMap (V := string) := Insert one_route net11 vb.
Definition after_evict : TrieMap (V := string) := RemoveValue two_routes va.
Definition reused : TrieMap (V := string) := Insert after_evict net12 vc.

(** ["b"] inserted and removed, then [10.0.0.0/8] bound to ["a"] and
    rebound to ["b"]. *)
Definition stale : TrieMap (V := string) := Remove' (Insert fresh net10 vb) net10.
Definition rebound : TrieMap (V := string) := Insert (Insert stale net10 va) net10 vb.

(** A route bound to the zero value of [V], and another route inserted
    and removed next to it. *)
Definition zero_route : TrieMap (V := string) := Insert fresh net10 vzero.
Definition zero_orphaned : TrieMap (V := string) :=
  Remove' (Insert zero_route net11 vx) net11.

(** Two routes bound to one value. *)
Definition shared_value : TrieMap (V := string) := Insert one_route net11 va.

(** [192.95.5.64/27] as the only route. *)
Definition route64 : TrieMap (V := string) := Insert fresh net64 va.

(** An addition on 128 bits that wraps around: one that adds when the
    sum fits. *)
Definition AddWrap (a b : Z) : Z := (a + b) mod 2 ^ 128.

(** [100.64.0.0] and [fd00::], the addresses of the package's tests of
    [Host]. *)
Definition cgnat : Z := 0x64400000.
Definition ula : Z := Z.shiftl 0xfd00 112.

End scenarios.

(** * Facts about the embedding *)

(** ** Bits of an address and containment *)

Module netip_facts.
Import netip.




Lemma land_63_small (s : Z) : 0 <= s < 64 -> Z.land s 63 = s.
Proof.
  intros Hs. change 63 with (Z.ones 6).
  rewrite Z.land_ones by lia. apply Z.mod_small. simpl. lia.
Qed.




Lemma Is4_Unmap_z4 (a : Addr) : z a = z4 -> Is4 (Unmap a) = true.
Proof.
  intros Hz. unfold Unmap, Is4In6, Is6. rewrite Hz. simpl.
  unfold Is4. rewrite Hz. reflexivity.
Qed.


End netip_facts.

(** ** The trie core *)

Module triemap_facts.
Import netip netip_facts triemap.

Lemma descend_Nil (path : list bool) : descend path Nil = Nil.
Proof. induction path as [| b path IH]; simpl; auto. Qed.

Lemma value_at_Nil (path : list bool) : value_at path Nil = None.
Proof. unfold value_at. now rewrite descend_Nil. Qed.

Lemma value_at_cons (b : bool) (path : list bool) (n : trieNode) :
  value_at (b :: path) n = value_at path (child b n).
Proof. reflexivity. Qed.



Lemma value_at_or_new (path : list bool) (n : trieNode) :
  value_at path (or_new n) = value_at path n.
Proof.
  destruct n; simpl; [| reflexivity].
  destruct path as [| [] path]; [reflexivity | |];
    rewrite value_at_cons; simpl; now rewrite !value_at_Nil.
Qed.

Lemma or_new_not_Nil (n : trieNode) : or_new n <> Nil.
Proof. now destruct n. Qed.

Lemma child_set_child_same (b : bool) (n c : trieNode) :
  n <> Nil -> child b (set_child b n c) = c.
Proof. destruct n, b; simpl; congruence. Qed.

Lemma child_set_child_other (b b' : bool) (n c : trieNode) :
  b <> b' -> child b' (set_child b n c) = child b' n.
Proof. destruct n, b, b'; simpl; congruence. Qed.

Lemma value_of_set_child (b : bool) (n c : trieNode) :
  value_of (set_child b n c) = value_of n.
Proof. now destruct n, b. Qed.

Lemma set_child_not_Nil (b : bool) (n c : trieNode) :
  n <> Nil -> set_child b n c <> Nil.
Proof. now destruct n, b. Qed.

Lemma child_set_value (b : bool) (n : trieNode) (v : option nodeValue) :
  child b (set_value n v) = child b n.
Proof. now destruct n. Qed.

(** *** Membership in [bindings] is being found by some walk *)

Lemma elem_of_bindings (n : trieNode) (nv : nodeValue) :
  nv ∈ bindings n <-> exists path, value_at path n = Some nv.
Proof.
  induction n as [| c0 IH0 c1 IH1 v]; simpl.
  - rewrite elem_of_nil. split; [tauto |].
    intros [path H]. now rewrite value_at_Nil in H.
  - rewrite !elem_of_app, IH0, IH1. split.
    + intros [H | [[path H] | [path H]]].
      * exists []. destruct v as [nv' |].
        -- apply list_elem_of_singleton in H. now subst.
        -- now apply elem_of_nil in H.
      * now exists (false :: path).
      * now exists (true :: path).
    + intros [[| [] path] H].
      * left. unfold value_at in H. simpl in H. subst v.
        now apply list_elem_of_singleton.
      * right. right. now exists path.
      * right. left. now exists path.
Qed.

Lemma stored_iff (t : trieMap) (nv : nodeValue) :
  stored t nv <->
  exists f path, value_at path (if f : bool then ipv4Root t else ipv6Root t) = Some nv.
Proof.
  unfold stored, all_bindings. rewrite elem_of_app, !elem_of_bindings. split.
  - intros [[path H] | [path H]]; [now exists true, path | now exists false, path].
  - intros [[] [path H]]; [left | right]; now exists path.
Qed.

(** *** insert *)

Lemma insert_walk_not_Nil (path : list bool) (nv : nodeValue) (n : trieNode) :
  n <> Nil -> insert_walk path nv n <> Nil.
Proof.
  destruct path as [| b path]; simpl; intros Hn.
  - now destruct n.
  - now apply set_child_not_Nil.
Qed.

Lemma value_at_insert_walk (p : list bool) (nv : nodeValue) :
  forall (n : trieNode) (path : list bool),
    n <> Nil ->
    value_at path (insert_walk p nv n) =
    if decide (path = p) then Some nv else value_at path n.
Proof.
  induction p as [| bit rest IH]; intros n path Hn; simpl.
  - destruct path as [| b path].
    + rewrite decide_True by reflexivity. now destruct n.
    + rewrite decide_False by discriminate.
      now rewrite !value_at_cons, child_set_value.
  - destruct path as [| b path].
    + rewrite decide_False by discriminate.
      unfold value_at. simpl. apply value_of_set_child.
    + rewrite value_at_cons. destruct (decide (b = bit)) as [-> | Hne].
      * rewrite child_set_child_same by assumption.
        rewrite IH by apply or_new_not_Nil.
        rewrite value_at_or_new, value_at_cons.
        destruct (decide (path = rest)) as [-> | Hp].
        -- now rewrite decide_True.
        -- rewrite decide_False; [reflexivity | congruence].
      * rewrite child_set_child_other by congruence.
        rewrite decide_False; [reflexivity | congruence].
Qed.

(** *** remove: the zipper computes [clear_at] *)

Lemma value_at_bare (path : list bool) (n : trieNode) :
  is_bare n = true -> value_at path n = None.
Proof.
  destruct n as [| [] [] []]; try discriminate. intros _.
  destruct path as [| [] path]; [reflexivity | |];
    rewrite value_at_cons; simpl; apply value_at_Nil.
Qed.

Lemma value_at_detach (path : list bool) (n : trieNode) :
  value_at path (detach n) = value_at path n.
Proof.
  unfold detach. destruct (is_bare n) eqn:E; [| reflexivity].
  now rewrite value_at_Nil, value_at_bare.
Qed.

Lemma value_at_clear_at (p : list bool) :
  forall (n : trieNode) (path : list bool),
    value_at path (clear_at p n) =
    if decide (path = p) then None else value_at path n.
Proof.
  induction p as [| bit rest IH]; intros n path; simpl.
  - destruct path as [| b path].
    + rewrite decide_True by reflexivity. now destruct n.
    + rewrite decide_False by discriminate.
      now rewrite !value_at_cons, child_set_value.
  - destruct n as [| c0 c1 v].
    + simpl. rewrite value_at_Nil. now destruct (decide _).
    + destruct path as [| b path].
      * rewrite decide_False by discriminate.
        unfold value_at. cbn [descend]. apply value_of_set_child.
      * rewrite value_at_cons. destruct (decide (b = bit)) as [-> | Hne].
        -- rewrite child_set_child_same by discriminate.
           rewrite value_at_detach, IH, value_at_cons.
           destruct (decide (path = rest)) as [-> | Hp].
           ++ now rewrite decide_True.
           ++ rewrite decide_False; [reflexivity | congruence].
        -- rewrite child_set_child_other by congruence.
           rewrite decide_False; [reflexivity | congruence].
Qed.

Lemma clear_at_not_Nil (p : list bool) (n : trieNode) :
  n <> Nil -> clear_at p n <> Nil.
Proof.
  destruct p as [| b p]; simpl; intros Hn.
  - now destruct n.
  - now apply set_child_not_Nil.
Qed.

Lemma is_bare_set_child (b : bool) (n c : trieNode) :
  n <> Nil -> c <> Nil -> is_bare (set_child b n c) = false.
Proof. destruct n as [| [] [] []], b, c; simpl; congruence. Qed.

Lemma prune_not_bare (stack : list frame) (n : trieNode) :
  is_bare n = false -> prune stack n = plug stack n.
Proof. destruct stack as [| [b parent] stack]; simpl; now intros ->. Qed.

Lemma remove_walk_inv (p : list bool) :
  forall (curr : trieNode) (stack stack' : list frame) (n : trieNode),
    curr <> Nil ->
    remove_walk p curr stack = Some (stack', n) ->
    n = descend p curr /\ n <> Nil /\
    prune stack' (set_value n None) = prune stack (clear_at p curr).
Proof.
  induction p as [| bit rest IH]; intros curr stack stack' n Hc H; simpl in *.
  - injection H as <- <-. auto.
  - destruct (child bit curr) as [| c0 c1 v] eqn:E; [discriminate |].
    apply IH in H as (Hn & Hnn & Hp); [| discriminate].
    split; [assumption |]. split; [assumption |].
    rewrite Hp. clear Hp Hn Hnn.
    set (m := clear_at rest (Node c0 c1 v)).
    assert (Hm : m <> Nil) by (apply clear_at_not_Nil; discriminate).
    simpl. unfold detach. destruct (is_bare m) eqn:Eb; [reflexivity |].
    rewrite (prune_not_bare stack); [reflexivity |].
    now apply is_bare_set_child.
Qed.

Lemma remove_walk_None (p : list bool) :
  forall (curr : trieNode) (stack : list frame),
    remove_walk p curr stack = None -> descend p curr = Nil.
Proof.
  induction p as [| bit rest IH]; intros curr stack H; simpl in *.
  - discriminate.
  - destruct (child bit curr) as [| c0 c1 v] eqn:E.
    + apply descend_Nil.
    + now apply IH in H.
Qed.

Lemma prune_root (n : trieNode) : prune [] n = n.
Proof. simpl. now destruct (is_bare n). Qed.

(** [remove], read off the value found at the end of the walk. *)
Lemma remove_spec (t : trieMap) (p : Prefix) :
  remove t p =
  match value_at (path_of p) (getRootNode t (ip p)) with
  | Some nv =>
      if bool_decide (prefix nv = p) then
        (set_root t (ip p) (clear_at (path_of p) (getRootNode t (ip p)))
                  (refs_release (keyRefs t) (key nv)),
         (key nv, true))
      else (t, (-1, false))
  | None => (t, (-1, false))
  end.
Proof.
  unfold remove.
  destruct (getRootNode t (ip p)) as [| c0 c1 v] eqn:Er.
  - now rewrite value_at_Nil.
  - destruct (remove_walk (path_of p) (Node c0 c1 v) []) as [[stack curr] |] eqn:Ew.
    + apply remove_walk_inv in Ew as (Hn & _ & Hp); [| discriminate].
      unfold value_at. rewrite <- Hn.
      destruct (value_of curr) as [nv |]; [| reflexivity].
      destruct (bool_decide (prefix nv = p)); [| reflexivity].
      now rewrite Hp, prune_root.
    + apply remove_walk_None in Ew. unfold value_at. now rewrite Ew.
Qed.

(** *** Pruning leaves no bare node below a root *)

Lemma no_bare_below_of (n : trieNode) : no_bare n -> no_bare_below n.
Proof. destruct n; simpl; unfold no_bare_below; simpl; tauto. Qed.

Lemma no_bare_intro (n : trieNode) :
  is_bare n = false -> no_bare_below n -> no_bare n.
Proof. destruct n; simpl; unfold no_bare_below; simpl; tauto. Qed.

Lemma no_bare_detach (n : trieNode) : no_bare_below n -> no_bare (detach n).
Proof.
  intros H. unfold detach. destruct (is_bare n) eqn:E; [exact I |].
  now apply no_bare_intro.
Qed.

Lemma no_bare_below_set_child (b : bool) (n c : trieNode) :
  no_bare_below n -> no_bare c -> no_bare_below (set_child b n c).
Proof.
  destruct n as [| c0 c1 v]; [auto |].
  unfold no_bare_below. destruct b; simpl; tauto.
Qed.

Lemma no_bare_below_set_value (n : trieNode) (v : option nodeValue) :
  no_bare_below n -> no_bare_below (set_value n v).
Proof. now destruct n. Qed.

Lemma no_bare_child (b : bool) (n : trieNode) :
  no_bare_below n -> no_bare (child b n).
Proof. unfold no_bare_below. destruct b; tauto. Qed.

Lemma no_bare_below_or_new (n : trieNode) :
  no_bare n -> no_bare_below (or_new n).
Proof.
  destruct n; simpl; [unfold no_bare_below; simpl; tauto |].
  intros H. apply (no_bare_below_of (Node n1 n2 value)). exact H.
Qed.

Lemma no_bare_below_clear_at (p : list bool) :
  forall n : trieNode, no_bare_below n -> no_bare_below (clear_at p n).
Proof.
  induction p as [| bit rest IH]; intros n H; simpl.
  - now apply no_bare_below_set_value.
  - apply no_bare_below_set_child; [assumption |].
    apply no_bare_detach, IH, no_bare_below_of, no_bare_child, H.
Qed.

Lemma no_bare_insert_walk (p : list bool) (nv : nodeValue) :
  forall n : trieNode,
    n <> Nil -> no_bare_below n -> no_bare (insert_walk p nv n).
Proof.
  induction p as [| bit rest IH]; intros n Hn H; simpl.
  - apply no_bare_intro; [now destruct n as [| [] [] ?] |].
    now apply no_bare_below_set_value.
  - assert (Hc : no_bare (insert_walk rest nv (or_new (child bit n)))).
    { apply IH; [apply or_new_not_Nil |].
      apply no_bare_below_or_new, no_bare_child, H. }
    apply no_bare_intro.
    + apply is_bare_set_child; [assumption |].
      apply insert_walk_not_Nil, or_new_not_Nil.
    + now apply no_bare_below_set_child.
Qed.

(** *** Every value stays where its prefix puts it *)

Lemma placed_Nil (f : bool) : placed f Nil.
Proof. intros path nv H. now rewrite value_at_Nil in H. Qed.

Lemma placed_insert_walk (f : bool) (root : trieNode) (p : Prefix) (k : Z) :
  placed f root -> is4 (ip p) = f -> prefix_ok p = true ->
  placed f (insert_walk (path_of p) (mkValue p k) (or_new root)).
Proof.
  intros Hpl Hf Hok path nv H.
  rewrite value_at_insert_walk in H by apply or_new_not_Nil.
  destruct (decide (path = path_of p)) as [-> | Hne].
  - injection H as <-. simpl. auto.
  - rewrite value_at_or_new in H. now apply Hpl.
Qed.

Lemma placed_clear_at (f : bool) (root : trieNode) (p : list bool) :
  placed f root -> placed f (clear_at p root).
Proof.
  intros Hpl path nv H. rewrite value_at_clear_at in H.
  destruct (decide (path = p)); [discriminate |]. now apply Hpl.
Qed.

(** *** The two roots under [set_root] *)

Lemma set_root_roots (t : trieMap) (a : Addr) (r : trieNode) (refs : gmap Z Z) :
  ipv4Root (set_root t a r refs) = (if is4 a then r else ipv4Root t) /\
  ipv6Root (set_root t a r refs) = (if is4 a then ipv6Root t else r).
Proof. unfold set_root. now destruct (is4 a). Qed.

Lemma trie_wf_set_root (t : trieMap) (a : Addr) (r : trieNode) (refs : gmap Z Z) :
  trie_wf t -> placed (is4 a) r -> trie_wf (set_root t a r refs).
Proof.
  intros [H4 H6] Hr. unfold trie_wf, set_root.
  destruct (is4 a); simpl; auto.
Qed.

Lemma roots_pruned_set_root (t : trieMap) (a : Addr) (r : trieNode) (refs : gmap Z Z) :
  roots_pruned t -> no_bare_below r -> roots_pruned (set_root t a r refs).
Proof.
  intros [H4 H6] Hr. unfold roots_pruned, set_root.
  destruct (is4 a); simpl; auto.
Qed.

Lemma placed_getRootNode (t : trieMap) (a : Addr) :
  trie_wf t -> placed (is4 a) (getRootNode t a).
Proof. intros [H4 H6]. unfold getRootNode. now destruct (is4 a). Qed.

Lemma no_bare_below_getRootNode (t : trieMap) (a : Addr) :
  roots_pruned t -> no_bare_below (getRootNode t a).
Proof. intros [H4 H6]. unfold getRootNode. now destruct (is4 a). Qed.

Lemma getRootNode_insert (t : trieMap) (p : Prefix) (k : Z) (a : Addr) :
  is4 a = is4 (ip p) ->
  getRootNode (insert t p k) a =
  insert_walk (path_of p) (mkValue p k) (or_new (getRootNode t (ip p))).
Proof.
  intros Ha. unfold insert, getRootNode, set_root. rewrite Ha.
  now destruct (is4 (ip p)).
Qed.

(** *** The invariants under the three mutations *)

Lemma trie_wf_insert (t : trieMap) (p : Prefix) (k : Z) :
  trie_wf t -> prefix_ok p = true -> trie_wf (insert t p k).
Proof.
  intros Hwf Hok. unfold insert. apply trie_wf_set_root; [assumption |].
  apply placed_insert_walk; auto using placed_getRootNode.
Qed.

Lemma roots_pruned_insert (t : trieMap) (p : Prefix) (k : Z) :
  roots_pruned t -> roots_pruned (insert t p k).
Proof.
  intros Hpr. unfold insert. apply roots_pruned_set_root; [assumption |].
  apply no_bare_below_of, no_bare_insert_walk; [apply or_new_not_Nil |].
  pose proof (no_bare_below_getRootNode t (ip p) Hpr) as H.
  destruct (getRootNode t (ip p)); [unfold no_bare_below; simpl; tauto | exact H].
Qed.

Lemma trie_wf_remove (t : trieMap) (p : Prefix) :
  trie_wf t -> trie_wf (fst (remove t p)).
Proof.
  intros Hwf. rewrite remove_spec.
  destruct (value_at _ _) as [nv |]; [| assumption].
  destruct (bool_decide _); [| assumption]. simpl.
  apply trie_wf_set_root; [assumption |].
  apply placed_clear_at, placed_getRootNode, Hwf.
Qed.

Lemma roots_pruned_remove (t : trieMap) (p : Prefix) :
  roots_pruned t -> roots_pruned (fst (remove t p)).
Proof.
  intros Hpr. rewrite remove_spec.
  destruct (value_at _ _) as [nv |]; [| assumption].
  destruct (bool_decide _); [| assumption]. simpl.
  apply roots_pruned_set_root; [assumption |].
  apply no_bare_below_clear_at, no_bare_below_getRootNode, Hpr.
Qed.

Lemma fold_remove_preserves (P : trieMap -> Prop) :
  (forall t p, P t -> P (fst (remove t p))) ->
  forall (l : list Prefix) (t : trieMap),
    P t -> P (fold_left (fun t' p => fst (remove t' p)) l t).
Proof.
  intros Hstep l. induction l as [| p l IH]; intros t Ht; simpl; auto.
Qed.

Lemma trie_wf_removeAll (t : trieMap) (k : Z) :
  trie_wf t -> trie_wf (removeAll t k).
Proof. apply fold_remove_preserves. intros; now apply trie_wf_remove. Qed.

Lemma roots_pruned_removeAll (t : trieMap) (k : Z) :
  roots_pruned t -> roots_pruned (removeAll t k).
Proof. apply fold_remove_preserves. intros; now apply roots_pruned_remove. Qed.

(** *** The walk of a prefix is the beginning of the walk of an address *)








(** *** get *)

(** A hit of the loop is a value on the walk whose prefix contains the
    address. *)
Lemma get_loop_contains (a : Addr) :
  forall (path : list bool) (curr : trieNode) (b : best),
    best_contains (get_loop a path curr b) = true ->
    best_contains b = true \/
    exists p nv, value_at p curr = Some nv /\ Contains (prefix nv) a = true.
Proof.
  induction path as [| bit rest IH]; intros curr b H; simpl in H; [auto |].
  destruct (child bit curr) as [| c0 c1 v] eqn:E; [auto |].
  apply IH in H as [H | (p & nv & Hp & Hc)].
  - unfold check_node in H.
    destruct (value_of (Node c0 c1 v)) as [nv |] eqn:Ev; [| auto].
    destruct (Contains (prefix nv) a) eqn:Ec; [| auto].
    right. exists [bit], nv. split; [| assumption].
    unfold value_at. simpl. now rewrite E.
  - right. exists (bit :: p), nv. split; [| assumption].
    rewrite value_at_cons. now rewrite E.
Qed.

Lemma get_contains (t : trieMap) (a : Addr) :
  snd (get t a) = true ->
  exists p nv, value_at p (getRootNode t a) = Some nv /\
               Contains (prefix nv) a = true.
Proof.
  unfold get. destruct (getRootNode t a) as [| c0 c1 v] eqn:E; [discriminate |].
  simpl. intros H. apply get_loop_contains in H as [H | H]; [| assumption].
  unfold check_root in H.
  destruct (value_of (Node c0 c1 v)) as [nv |] eqn:Ev; [| discriminate].
  destruct (Contains (prefix nv) a) eqn:Ec; [| discriminate].
  now exists [], nv.
Qed.





(** *** What remains stored after [remove] *)

Lemma root_set_root (f : bool) (t : trieMap) (a : Addr) (r : trieNode) (refs : gmap Z Z) :
  (if f then ipv4Root (set_root t a r refs) else ipv6Root (set_root t a r refs)) =
  if bool_decide (f = is4 a) then r
  else if f then ipv4Root t else ipv6Root t.
Proof. unfold set_root. now destruct f, (is4 a). Qed.

Lemma stored_remove (t : trieMap) (p : Prefix) (nv0 : nodeValue) :
  trie_wf t ->
  value_at (path_of p) (getRootNode t (ip p)) = Some nv0 ->
  prefix nv0 = p ->
  forall nv, stored (fst (remove t p)) nv <-> stored t nv /\ prefix nv <> p.
Proof.
  intros Hwf Hv Hp nv. rewrite remove_spec, Hv.
  rewrite bool_decide_eq_true_2 by assumption. simpl fst.
  assert (Hpl : forall f, placed f (if f then ipv4Root t else ipv6Root t))
    by (destruct Hwf; now intros []).
  rewrite !stored_iff. split.
  - intros (f & path & H). rewrite root_set_root in H.
    destruct (bool_decide (f = is4 (ip p))) eqn:Ef.
    + apply bool_decide_eq_true in Ef. subst f.
      rewrite value_at_clear_at in H.
      destruct (decide (path = path_of p)) as [| Hne]; [discriminate |].
      split; [now exists (is4 (ip p)), path |].
      intros Heq. apply (Hpl (is4 (ip p))) in H as (_ & Hpath & _).
      rewrite Heq in Hpath. congruence.
    + apply bool_decide_eq_false in Ef.
      split; [now exists f, path |].
      intros Heq. apply (Hpl f) in H as (Hf & _).
      rewrite Heq in Hf. congruence.
  - intros [(f & path & H) Hne]. exists f, path. rewrite root_set_root.
    destruct (bool_decide (f = is4 (ip p))) eqn:Ef; [| assumption].
    apply bool_decide_eq_true in Ef. subst f.
    rewrite value_at_clear_at.
    destruct (decide (path = path_of p)) as [-> | Hnp]; [| assumption].
    exfalso. apply Hne. unfold getRootNode in Hv. congruence.
Qed.

(** *** Bare roots and empty tries *)

Lemma bindings_nil_no_bare (n : trieNode) :
  no_bare n -> bindings n = [] -> n = Nil.
Proof.
  induction n as [| c0 IH0 c1 IH1 v]; [reflexivity |].
  simpl. intros (Hb & H0 & H1) Hnil.
  destruct v; [discriminate |]. simpl in Hnil.
  apply app_eq_nil in Hnil as [E0 E1].
  rewrite (IH0 H0 E0), (IH1 H1 E1) in Hb. discriminate.
Qed.

Lemma root_unused_no_bindings (root : trieNode) :
  no_bare_below root -> bindings root = [] -> root_unused root = true.
Proof.
  destruct root as [| c0 c1 v]; [reflexivity |].
  unfold no_bare_below. simpl. intros [H0 H1] Hnil.
  destruct v; [discriminate |]. simpl in Hnil.
  apply app_eq_nil in Hnil as [E0 E1].
  now rewrite (bindings_nil_no_bare _ H0 E0), (bindings_nil_no_bare _ H1 E1).
Qed.

Lemma root_unused_bindings (root : trieNode) :
  root_unused root = true -> bindings root = [].
Proof. now destruct root as [| [] [] []]. Qed.

Lemma root_unused_insert_walk (p : list bool) (nv : nodeValue) (n : trieNode) :
  n <> Nil -> root_unused (insert_walk p nv n) = false.
Proof.
  intros Hn. destruct p as [| bit rest]; simpl.
  - now destruct n as [| [] [] ?].
  - assert (Hc : insert_walk rest nv (or_new (child bit n)) <> Nil)
      by apply insert_walk_not_Nil, or_new_not_Nil.
    destruct n as [| c0 c1 v]; [congruence |].
    destruct (insert_walk rest nv (or_new (child bit (Node c0 c1 v)))); [congruence |].
    destruct bit; simpl; [now destruct c0 | reflexivity].
Qed.

Lemma root_unused_spec (root : trieNode) :
  root_unused root = true <-> root_absent_or_bare root.
Proof.
  unfold root_absent_or_bare. destruct root as [| c0 c1 v]; simpl.
  - split; auto.
  - split.
    + intros Hb. right. destruct c0, c1, v; try discriminate. now repeat split.
    + intros [Hn | (_ & Hv & H0 & H1)]; [discriminate |]. now subst.
Qed.

(** *** removeAll: the traversal is complete *)

Lemma push_if_present_spec (k : Z) (n : trieNode) (stack : list trieNode) :
  Forall (fun m => m <> Nil) stack ->
  Forall (fun m => m <> Nil) (push_if_present n stack) /\
  stack_nodes (push_if_present n stack) = (nodes n + stack_nodes stack)%nat /\
  flat_map (matching k) (push_if_present n stack) =
  matching k n ++ flat_map (matching k) stack.
Proof.
  intros Hs. destruct n as [| c0 c1 v]; [auto |].
  split; [| split]; try reflexivity. constructor; [discriminate | assumption].
Qed.

(** With as much fuel as there are nodes on the stack, the loop ends
    with the empty stack, having met every node. *)
Lemma collect_loop_spec (k : Z) :
  forall (fuel : nat) (stack : list trieNode) (acc : list Prefix),
    Forall (fun m => m <> Nil) stack ->
    (stack_nodes stack <= fuel)%nat ->
    collect_loop fuel k stack acc = acc ++ flat_map (matching k) stack.
Proof.
  induction fuel as [| fuel IH]; intros stack acc Hs Hf.
  - destruct stack as [| [| c0 c1 v] stack]; simpl in *.
    + now rewrite app_nil_r.
    + inversion Hs; congruence.
    + lia.
  - destruct stack as [| curr stack]; simpl; [now rewrite app_nil_r |].
    inversion Hs as [| ? ? Hc Hs']; subst.
    destruct curr as [| c0 c1 v]; [congruence |].
    destruct (push_if_present_spec k c0 stack Hs') as (F0 & N0 & M0).
    destruct (push_if_present_spec k c1 _ F0) as (F1 & N1 & M1).
    simpl child. rewrite IH; [| assumption |].
    + rewrite M1, M0. simpl.
      destruct v as [nv |]; [destruct (key nv =? k) |]; simpl;
        now rewrite <- ?app_assoc.
    + rewrite N1, N0. simpl in Hf. lia.
Qed.

Lemma elem_of_matching (k : Z) (n : trieNode) (p : Prefix) :
  p ∈ matching k n <-> mkValue p k ∈ bindings n.
Proof.
  induction n as [| c0 IH0 c1 IH1 v]; simpl.
  - now rewrite !elem_of_nil.
  - rewrite !elem_of_app, IH0, IH1.
    assert (Hv : p ∈ match v with
                     | Some nv => if key nv =? k then [prefix nv] else []
                     | None => []
                     end <->
                 mkValue p k ∈ match v with
                               | Some nv => [nv]
                               | None => []
                               end).
    { destruct v as [[q k'] |]; simpl; [| now rewrite !elem_of_nil].
      destruct (Z.eqb_spec k' k) as [-> | Hne].
      - rewrite !list_elem_of_singleton. split; congruence.
      - rewrite elem_of_nil, list_elem_of_singleton. split; [tauto | congruence]. }
    tauto.
Qed.

Lemma removeAll_spec (t : trieMap) (k : Z) :
  removeAll t k =
  fold_left (fun t' p => fst (remove t' p))
            (matching k (ipv6Root t) ++ matching k (ipv4Root t)) t.
Proof.
  unfold removeAll. f_equal.
  destruct (push_if_present_spec k (ipv4Root t) [] (Forall_nil_2 _)) as (F4 & N4 & M4).
  destruct (push_if_present_spec k (ipv6Root t) _ F4) as (F6 & N6 & M6).
  rewrite collect_loop_spec; [| assumption |].
  - rewrite M6, M4. simpl. now rewrite app_nil_r.
  - rewrite N6, N4. simpl. lia.
Qed.

(** In a well-formed trie a prefix is stored at most once. *)
Lemma stored_unique_prefix (t : trieMap) (nv nv' : nodeValue) :
  trie_wf t -> stored t nv -> stored t nv' -> prefix nv = prefix nv' -> nv = nv'.
Proof.
  intros Hwf H1 H2 Heq.
  assert (Hpl : forall f, placed f (if f then ipv4Root t else ipv6Root t))
    by (destruct Hwf; now intros []).
  apply stored_iff in H1 as (f1 & p1 & Hv1).
  apply stored_iff in H2 as (f2 & p2 & Hv2).
  destruct (Hpl _ _ _ Hv1) as (Hf1 & Hp1 & _).
  destruct (Hpl _ _ _ Hv2) as (Hf2 & Hp2 & _).
  rewrite Heq in Hf1, Hp1. subst f1 p1. rewrite <- Hf2, <- Hp2 in Hv2.
  congruence.
Qed.

(** [remove], successful or not, leaves exactly the bindings of other
    prefixes. *)
Lemma stored_after_remove (t : trieMap) (p : Prefix) :
  trie_wf t ->
  forall nv, stored (fst (remove t p)) nv <-> stored t nv /\ prefix nv <> p.
Proof.
  intros Hwf nv.
  destruct (value_at (path_of p) (getRootNode t (ip p))) as [nv0 |] eqn:Ev.
  - destruct (decide (prefix nv0 = p)) as [Hp | Hp].
    + now apply (stored_remove _ _ nv0).
    + rewrite remove_spec, Ev, bool_decide_eq_false_2 by assumption. simpl.
      split; [| tauto]. intros Hst. split; [assumption |]. intros Heq.
      apply Hp. rewrite <- Heq. f_equal.
      apply (stored_unique_prefix t); auto.
      * apply stored_iff. now exists (is4 (ip p)), (path_of p).
      * apply stored_iff in Hst as (f & path & Hv).
        assert (Hpl : placed f (if f then ipv4Root t else ipv6Root t))
          by (destruct Hwf; now destruct f).
        destruct (Hpl _ _ Hv) as (Hf & Hpa & _).
        rewrite Heq in Hf, Hpa. subst f path.
        unfold getRootNode in Ev. congruence.
  - rewrite remove_spec, Ev. simpl.
    split; [| tauto]. intros Hst. split; [assumption |]. intros Heq.
    apply stored_iff in Hst as (f & path & Hv).
    assert (Hpl : placed f (if f then ipv4Root t else ipv6Root t))
      by (destruct Hwf; now destruct f).
    destruct (Hpl _ _ Hv) as (Hf & Hpa & _).
    rewrite Heq in Hf, Hpa. subst f path.
    unfold getRootNode in Ev. congruence.
Qed.

Lemma stored_fold_remove (l : list Prefix) :
  forall t : trieMap,
    trie_wf t ->
    forall nv, stored (fold_left (fun t' p => fst (remove t' p)) l t) nv <->
               stored t nv /\ prefix nv ∉ l.
Proof.
  induction l as [| p l IH]; intros t Hwf nv; simpl.
  - rewrite elem_of_nil. tauto.
  - rewrite IH by now apply trie_wf_remove.
    rewrite stored_after_remove by assumption.
    rewrite not_elem_of_cons. tauto.
Qed.

(** [removeAll k] leaves exactly the bindings whose key is not [k]. *)
Lemma stored_removeAll (t : trieMap) (k : Z) :
  trie_wf t ->
  forall nv, stored (removeAll t k) nv <-> stored t nv /\ key nv <> k.
Proof.
  intros Hwf nv. rewrite removeAll_spec, stored_fold_remove by assumption.
  assert (Hin : forall p, p ∈ matching k (ipv6Root t) ++ matching k (ipv4Root t) <->
                          stored t (mkValue p k)).
  { intros p. unfold stored, all_bindings.
    rewrite !elem_of_app, !elem_of_matching. tauto. }
  rewrite Hin. split; intros [Hst Hn]; (split; [assumption |]).
  - intros Hk. apply Hn. destruct nv as [q k']. simpl in *. now subst.
  - intros Hst'. apply Hn.
    now rewrite (stored_unique_prefix t nv (mkValue (prefix nv) k) Hwf Hst Hst').
Qed.

(** *** Reference counts count the nodes *)

Lemma key_count_app (k : Z) (l1 l2 : list nodeValue) :
  key_count k (l1 ++ l2) = key_count k l1 + key_count k l2.
Proof. unfold key_count. rewrite filter_app, length_app. lia. Qed.

Lemma key_count_value (k : Z) (v : option nodeValue) :
  key_count k match v with
              | Some nv => [nv]
              | None => []
              end = hit k v.
Proof.
  destruct v as [nv |]; [| reflexivity]. unfold key_count, hit.
  rewrite filter_cons, filter_nil. now destruct (decide (key nv = k)).
Qed.

Lemma key_count_Node (k : Z) (c0 c1 : trieNode) (v : option nodeValue) :
  key_count k (bindings (Node c0 c1 v)) =
  hit k v + key_count k (bindings c0) + key_count k (bindings c1).
Proof. simpl. rewrite !key_count_app, key_count_value. lia. Qed.

Lemma bindings_or_new (n : trieNode) : bindings (or_new n) = bindings n.
Proof. now destruct n. Qed.

Lemma bindings_detach (n : trieNode) : bindings (detach n) = bindings n.
Proof.
  unfold detach. destruct (is_bare n) eqn:E; [| reflexivity].
  now destruct n as [| [] [] []].
Qed.

Lemma key_count_insert_walk (k : Z) (p : list bool) (nv : nodeValue) :
  forall n : trieNode,
    n <> Nil ->
    key_count k (bindings (insert_walk p nv n)) =
    key_count k (bindings n) - hit k (value_at p n) + hit k (Some nv).
Proof.
  induction p as [| bit rest IH]; intros [| c0 c1 v] Hn; try congruence.
  - cbn [insert_walk set_value]. rewrite !key_count_Node.
    unfold value_at. simpl value_of. lia.
  - cbn [insert_walk]. rewrite value_at_cons.
    destruct bit; cbn [set_child child]; rewrite !key_count_Node;
      rewrite IH by apply or_new_not_Nil;
      rewrite bindings_or_new, value_at_or_new; lia.
Qed.

Lemma key_count_clear_at (k : Z) (p : list bool) :
  forall n : trieNode,
    key_count k (bindings (clear_at p n)) =
    key_count k (bindings n) - hit k (value_at p n).
Proof.
  induction p as [| bit rest IH]; intros [| c0 c1 v].
  - reflexivity.
  - cbn [clear_at set_value]. rewrite !key_count_Node.
    unfold value_at. simpl value_of. unfold hit at 1. lia.
  - cbn [clear_at set_child]. now rewrite value_at_Nil.
  - cbn [clear_at]. rewrite value_at_cons.
    destruct bit; cbn [set_child child]; rewrite !key_count_Node;
      rewrite bindings_detach, IH; lia.
Qed.

Lemma refs_get_inc (m : gmap Z Z) (k' k : Z) :
  refs_get (refs_inc m k') k = refs_get m k + (if decide (k' = k) then 1 else 0).
Proof.
  unfold refs_inc, refs_get at 1. rewrite lookup_insert.
  destruct (decide (k' = k)) as [-> |]; simpl; [reflexivity |].
  unfold refs_get. lia.
Qed.

Lemma refs_get_dec (m : gmap Z Z) (k' k : Z) :
  refs_get (refs_dec m k') k = refs_get m k - (if decide (k' = k) then 1 else 0).
Proof.
  unfold refs_dec, refs_get at 1. rewrite lookup_insert.
  destruct (decide (k' = k)) as [-> |]; simpl; [reflexivity |].
  unfold refs_get. lia.
Qed.

Lemma refs_get_release (m : gmap Z Z) (k' k : Z) :
  refs_get (refs_release m k') k =
  refs_get m k - (if decide (k' = k) then 1 else 0).
Proof.
  unfold refs_release.
  destruct (Z.eqb_spec (refs_get (refs_dec m k') k') 0) as [E0 | _];
    [| apply refs_get_dec].
  rewrite <- (refs_get_dec m k' k).
  unfold refs_get at 1. rewrite lookup_delete.
  destruct (decide (k' = k)) as [<- |]; simpl; [now rewrite E0 | reflexivity].
Qed.

Lemma key_count_set_root (k : Z) (t : trieMap) (a : Addr) (r : trieNode) (refs : gmap Z Z) :
  key_count k (all_bindings (set_root t a r refs)) =
  key_count k (all_bindings t) - key_count k (bindings (getRootNode t a))
  + key_count k (bindings r).
Proof.
  unfold all_bindings, set_root, getRootNode.
  destruct (is4 a); simpl; rewrite !key_count_app; lia.
Qed.

Lemma keyRefs_set_root (t : trieMap) (a : Addr) (r : trieNode) (refs : gmap Z Z) :
  keyRefs (set_root t a r refs) = refs.
Proof. unfold set_root. now destruct (is4 a). Qed.

Lemma refs_ok_insert (t : trieMap) (p : Prefix) (k0 : Z) :
  refs_ok t -> refs_ok (insert t p k0).
Proof.
  intros Hok k. unfold insert.
  rewrite keyRefs_set_root, key_count_set_root.
  rewrite key_count_insert_walk by apply or_new_not_Nil.
  rewrite bindings_or_new, refs_get_inc.
  fold (value_at (path_of p) (or_new (getRootNode t (ip p)))).
  rewrite value_at_or_new.
  destruct (value_at (path_of p) (getRootNode t (ip p))) as [old |];
    [rewrite refs_get_dec |]; rewrite Hok; simpl; lia.
Qed.

Lemma refs_ok_remove (t : trieMap) (p : Prefix) :
  refs_ok t -> refs_ok (fst (remove t p)).
Proof.
  intros Hok. rewrite remove_spec.
  destruct (value_at (path_of p) (getRootNode t (ip p))) as [nv |] eqn:Ev;
    [| assumption].
  destruct (bool_decide (prefix nv = p)); [| assumption].
  simpl. intros k.
  rewrite keyRefs_set_root, key_count_set_root, key_count_clear_at, Ev.
  rewrite refs_get_release, Hok. simpl. lia.
Qed.

Lemma refs_ok_removeAll (t : trieMap) (k : Z) :
  refs_ok t -> refs_ok (removeAll t k).
Proof. apply fold_remove_preserves. intros; now apply refs_ok_remove. Qed.

Lemma key_count_pos (l : list nodeValue) (nv : nodeValue) :
  nv ∈ l -> 0 < key_count (key nv) l.
Proof.
  intros Hin. unfold key_count.
  assert (Hf : nv ∈ filter (fun nv' => key nv' = key nv) l)
    by (apply list_elem_of_filter; auto).
  destruct (filter _ l); [now apply elem_of_nil in Hf | simpl; lia].
Qed.

End triemap_facts.

(** ** The facade *)

Module TrieMap_facts.
Import netip netip_facts triemap triemap_facts.

Section Facade.

Context {V : Type} `{Countable V}.
Variable zero : V.

Lemma trie_Insert (t : TrieMap) (p : Prefix) (v : V) :
  exists k, trie (Insert t p v) = insert (trie t) p k /\
            valueToKey (Insert t p v) !! v = Some k.
Proof.
  unfold Insert. destruct (valueToKey t !! v) as [k |] eqn:E.
  - exists k. simpl. auto.
  - eexists. simpl. split; [reflexivity |]. apply lookup_insert_eq.
Qed.

Lemma Remove_core (t : TrieMap) (p : Prefix) :
  trie (fst (Remove zero t p)) = fst (remove (trie t) p) /\
  snd (Remove zero t p) = snd (snd (remove (trie t) p)).
Proof.
  unfold Remove. destruct (remove (trie t) p) as [tr [k removed]]. simpl.
  now destruct (removed && (refs_get (keyRefs tr) k =? 0)).
Qed.

Lemma remove_false (tr : trieMap) (p : Prefix) :
  snd (snd (remove tr p)) = false -> remove tr p = (tr, (-1, false)).
Proof.
  rewrite remove_spec.
  destruct (value_at _ _) as [nv |]; [| reflexivity].
  now destruct (bool_decide _).
Qed.

Lemma Remove_false (t : TrieMap) (p : Prefix) :
  snd (snd (remove (trie t) p)) = false -> Remove zero t p = (t, false).
Proof.
  intros Hf. unfold Remove. rewrite (remove_false _ _ Hf). simpl.
  now destruct t.
Qed.

Lemma RemoveValue_core (t : TrieMap) (v : V) :
  trie (RemoveValue t v) = trie t \/
  exists k, trie (RemoveValue t v) = removeAll (trie t) k.
Proof.
  unfold RemoveValue. destruct (valueToKey t !! v) as [k |]; simpl; eauto.
Qed.

(** Every reachable state files each value under its own prefix and
    keeps no bare node below a root. *)
Lemma reachable_inv (t : TrieMap) :
  reachable zero t -> trie_wf (trie t) /\ roots_pruned (trie t).
Proof.
  induction 1 as [| t p v Hr [IHw IHp] Hok | t p Hr [IHw IHp] Hok | t v Hr [IHw IHp]].
  - simpl. split; split; simpl;
      try apply placed_Nil; unfold no_bare_below; simpl; tauto.
  - destruct (trie_Insert t p v) as (k & -> & _).
    split; [now apply trie_wf_insert | now apply roots_pruned_insert].
  - destruct (Remove_core t p) as [-> _].
    split; [now apply trie_wf_remove | now apply roots_pruned_remove].
  - destruct (RemoveValue_core t v) as [-> | [k ->]]; [auto |].
    split; [now apply trie_wf_removeAll | now apply roots_pruned_removeAll].
Qed.

Lemma reachable_refs_ok (t : TrieMap) :
  reachable zero t -> refs_ok (trie t).
Proof.
  induction 1 as [| t p v Hr IH Hok | t p Hr IH Hok | t v Hr IH].
  - intros k. reflexivity.
  - destruct (trie_Insert t p v) as (k & -> & _). now apply refs_ok_insert.
  - destruct (Remove_core t p) as [-> _]. now apply refs_ok_remove.
  - destruct (RemoveValue_core t v) as [-> | [k ->]]; [assumption |].
    now apply refs_ok_removeAll.
Qed.

(** In every reachable state a key held by a node has a positive
    reference count. *)
Lemma stored_refs_positive (t : TrieMap) (nv : nodeValue) :
  reachable zero t -> stored (trie t) nv ->
  0 < refs_get (keyRefs (trie t)) (key nv).
Proof.
  intros Hr Hst. rewrite (reachable_refs_ok t Hr). now apply key_count_pos.
Qed.

(** In every reachable state, [RemoveValue] of a value that the registry
    maps to key [k] leaves exactly the bindings of other keys. *)
Lemma RemoveValue_stored (t : TrieMap) (v : V) (k : Z) :
  reachable zero t -> valueToKey t !! v = Some k ->
  forall nv, stored (trie (RemoveValue t v)) nv <->
             stored (trie t) nv /\ key nv <> k.
Proof.
  intros Hr Hk nv. destruct (reachable_inv t Hr) as [Hwf _].
  unfold RemoveValue. rewrite Hk. simpl. now apply stored_removeAll.
Qed.

End Facade.

End TrieMap_facts.

(** * The properties of the specification *)

Module triemap_spec.
Import netip netip_facts triemap triemap_facts TrieMap_facts scenarios.

Section Properties.

Context {V : Type} `{Countable V}.
Variable zero : V.


(** C4.  In every reachable state, [Remove p] returns [true] exactly
    when some node stores the prefix [p] verbatim; it then deletes that
    binding and no other; and when it returns [false] the map is left as
    it was, trie and registry. *)
Theorem C4_Remove_exact (t : TrieMap) (p : Prefix) :
  reachable zero t ->
  prefix_ok p = true ->
  (snd (Remove zero t p) = true <-> exists k, stored (trie t) (mkValue p k)) /\
  (snd (Remove zero t p) = true ->
   forall nv, stored (trie (fst (Remove zero t p))) nv <->
              stored (trie t) nv /\ prefix nv <> p) /\
  (snd (Remove zero t p) = false -> fst (Remove zero t p) = t).
Proof.
  intros Hr _.
  destruct (reachable_inv zero t Hr) as [Hwf _].
  destruct (Remove_core zero t p) as [Etr Esnd].
  split; [| split].
  - rewrite Esnd, remove_spec. split.
    + destruct (value_at _ _) as [[q k] |] eqn:Ev; [| discriminate].
      destruct (bool_decide (prefix (mkValue q k) = p)) eqn:Eb; [| discriminate].
      intros _. apply bool_decide_eq_true in Eb. simpl in Eb. subst q.
      exists k. apply stored_iff. now exists (is4 (ip p)), (path_of p).
    + intros [k Hst]. apply stored_iff in Hst as (f & path & Hv).
      assert (Hpl : placed f (if f then ipv4Root (trie t) else ipv6Root (trie t)))
        by (destruct Hwf; now destruct f).
      destruct (Hpl _ _ Hv) as (Hf & Hpath & _). simpl in Hf, Hpath.
      unfold getRootNode. rewrite Hf, Hpath, Hv.
      now rewrite bool_decide_eq_true_2.
  - intros Hs nv. rewrite Etr. rewrite Esnd, remove_spec in Hs.
    destruct (value_at _ _) as [nv0 |] eqn:Ev; [| discriminate].
    destruct (bool_decide (prefix nv0 = p)) eqn:Eb; [| discriminate].
    apply bool_decide_eq_true in Eb. now apply (stored_remove _ _ nv0).
  - intros Hs. rewrite Esnd in Hs. now rewrite (Remove_false zero t p Hs).
Qed.

(** C7.  [Empty] is true of the fresh map; in every reachable state it
    is true exactly when no prefix is stored any more, whichever of
    [Remove] and [RemoveValue] removed them; it is false after every
    [Insert]; and it is true exactly when the root of each family is
    absent or present with no value and no children. *)
Theorem C7_Empty (t : TrieMap) (p : Prefix) (v : V) :
  reachable zero t ->
  Empty (New (V := V)) = true /\
  (all_bindings (trie t) = [] <-> Empty t = true) /\
  Empty (Insert t p v) = false /\
  (Empty t = true <->
   root_absent_or_bare (ipv4Root (trie t)) /\
   root_absent_or_bare (ipv6Root (trie t))).
Proof.
  intros Hr. destruct (reachable_inv zero t Hr) as [_ [Hp4 Hp6]].
  split; [reflexivity |]. split; [| split].
  - unfold all_bindings, Empty. split.
    + intros Hnil. apply app_eq_nil in Hnil as [E4 E6].
      now rewrite (root_unused_no_bindings _ Hp4 E4), (root_unused_no_bindings _ Hp6 E6).
    + intros He. apply andb_prop in He as [E4 E6].
      now rewrite (root_unused_bindings _ E4), (root_unused_bindings _ E6).
  - destruct (trie_Insert t p v) as (k & Etr & _).
    unfold Empty. rewrite Etr. unfold insert, set_root.
    destruct (is4 (ip p)); simpl;
      rewrite root_unused_insert_walk by apply or_new_not_Nil;
      [reflexivity | apply andb_false_r].
  - unfold Empty. rewrite andb_true_iff, !root_unused_spec. reflexivity.
Qed.

(** C8.  A miss: in every reachable state, an address contained in no
    stored prefix of its family gets the zero value and [false]. *)
Theorem C8_lookup_miss (t : TrieMap) (A : Addr) :
  reachable zero t ->
  (forall Q k, stored (trie t) (mkValue Q k) -> is4 (ip Q) = is4 A ->
               Contains Q A = false) ->
  Get zero t A = (zero, false).
Proof.
  intros Hr Hnone.
  destruct (reachable_inv zero t Hr) as [Hwf _].
  unfold Get. destruct (get (trie t) A) as [k contains] eqn:Eg.
  destruct contains; [| reflexivity]. exfalso.
  assert (Hs : snd (get (trie t) A) = true) by now rewrite Eg.
  apply get_contains in Hs as (p & [Q k'] & Hv & Hc). simpl in Hc.
  destruct (placed_getRootNode _ A Hwf _ _ Hv) as (Hf & _). simpl in Hf.
  rewrite (Hnone Q k') in Hc; [discriminate | | assumption].
  apply stored_iff. exists (is4 A), p. exact Hv.
Qed.

(** C9, as amended.  After every mutation no node without value and
    without children remains below either root; a root itself may remain
    bare. *)
Theorem C9_eager_pruning (t : TrieMap) :
  reachable zero t ->
  no_bare_below (ipv4Root (trie t)) /\ no_bare_below (ipv6Root (trie t)).
Proof. intros Hr. now destruct (reachable_inv zero t Hr) as [_ Hp]. Qed.


End Properties.

(** *** The properties at concrete maps *)

Lemma reachable_one_route : reachable vzero one_route.
Proof. apply reach_Insert; [apply reach_New | reflexivity]. Defined.

Lemma all_bindings_one_route :
  all_bindings (trie one_route) = [mkValue net10 0].
Proof. vm_compute. reflexivity. Defined.



(** The family of an address is the root [getRootNode] selects: the
    IPv4-mapped [::ffff:10.0.0.1] is looked up under the 32-bit root,
    where no stored prefix contains it in netip's sense, and [::/0],
    which does contain it, is not consulted. *)
Example mapped_address_is_filed_as_ipv4 :
  is4 mapped_host10 = true /\
  is4 (ip all_ipv6) = false /\
  Contains all_ipv6 mapped_host10 = true /\
  Contains net10 mapped_host10 = false /\
  Get vzero both_families mapped_host10 = (vzero, false).
Proof. repeat split; vm_compute; reflexivity. Qed.

(** C4 at the single route: removing it, the one binding there is. *)
Lemma C4_Remove_exact_witness :
  (snd (Remove vzero one_route net10) = true <->
   exists k, stored (trie one_route) (mkValue net10 k)) /\
  (snd (Remove vzero one_route net10) = true ->
   forall nv, stored (trie (fst (Remove vzero one_route net10))) nv <->
              stored (trie one_route) nv /\ prefix nv <> net10) /\
  (snd (Remove vzero one_route net10) = false ->
   fst (Remove vzero one_route net10) = one_route).
Proof.
  apply (C4_Remove_exact vzero one_route net10).
  - exact reachable_one_route.
  - reflexivity.
Defined.

Lemma reachable_emptied_by_value : reachable vzero emptied_by_value.
Proof. apply reach_RemoveValue. exact reachable_one_route. Defined.

(** C7 at the map whose single route was removed by value. *)
Lemma C7_Empty_witness :
  Empty fresh = true /\
  (all_bindings (trie emptied_by_value) = [] <-> Empty emptied_by_value = true) /\
  Empty (Insert emptied_by_value net10 va) = false /\
  (Empty emptied_by_value = true <->
   root_absent_or_bare (ipv4Root (trie emptied_by_value)) /\
   root_absent_or_bare (ipv6Root (trie emptied_by_value))).
Proof.
  apply (C7_Empty vzero emptied_by_value net10 va).
  exact reachable_emptied_by_value.
Defined.

(** C8 at [11.0.0.1] under the single route [10.0.0.0/8]. *)
Lemma C8_lookup_miss_witness : Get vzero one_route host11 = (vzero, false).
Proof.
  apply (C8_lookup_miss vzero one_route host11).
  - exact reachable_one_route.
  - intros Q k Hst _. unfold stored in Hst. rewrite all_bindings_one_route in Hst.
    apply list_elem_of_singleton in Hst. injection Hst as -> _.
    vm_compute. reflexivity.
Defined.

Lemma reachable_emptied : reachable vzero emptied.
Proof.
  unfold emptied, Remove'. apply reach_Remove; [exact reachable_one_route | reflexivity].
Defined.

(** C9 at the map whose single route was removed. *)
Lemma C9_eager_pruning_witness :
  no_bare_below (ipv4Root (trie emptied)) /\ no_bare_below (ipv6Root (trie emptied)).
Proof. apply (C9_eager_pruning vzero emptied). exact reachable_emptied. Defined.

(** C9 as stated fails at the root: after [Insert 10.0.0.0/8] and
    [Remove 10.0.0.0/8] the IPv4 root remains, without value and without
    children. *)
Lemma C9_counterexample :
  reachable vzero emptied /\
  ipv4Root (trie emptied) = Node Nil Nil None /\
  ~ no_bare (ipv4Root (trie emptied)).
Proof.
  split; [exact reachable_emptied |].
  split; [vm_compute; reflexivity |].
  vm_compute. intros [Hb _]. discriminate Hb.
Qed.


(** *** Where the program departs from its specification *)

(** C2.  The key of a new value is the current size of [keyToValue], not
    a counter: after ["a"] (key 0) is evicted, ["c"] is given key 1,
    which was given to ["b"] before and which the node of [11.0.0.0/8]
    still holds; [Get 11.0.0.1] then answers ["c"] for the route bound
    to ["b"]. *)
Lemma C2_key_reused :
  reachable vzero reused /\
  valueToKey two_routes !! vb = Some 1 /\
  stored (trie after_evict) (mkValue net11 1) /\
  valueToKey after_evict !! vc = None /\
  valueToKey reused !! vc = Some 1 /\
  Get vzero two_routes host11 = (vb, true) /\
  Get vzero reused host11 = (vc, true).
Proof.
  split.
  { apply reach_Insert; [| reflexivity]. apply reach_RemoveValue.
    apply reach_Insert; [exact reachable_one_route | reflexivity]. }
  split; [vm_compute; reflexivity |]. split.
  { unfold stored.
    replace (all_bindings (trie after_evict)) with [mkValue net11 1]
      by (vm_compute; reflexivity).
    now apply list_elem_of_singleton. }
  repeat split; vm_compute; reflexivity.
Qed.

(** C3.  After [Insert 10.0.0.0/8 "a"] and [Remove 10.0.0.0/8] no node
    holds key 0 and its reference count is gone, yet [valueToKey] still
    maps ["a"] to 0: [Remove] deletes the entry of the zero value of [V]
    instead. *)
Lemma C3_stale_registry :
  reachable vzero emptied /\
  snd (Remove vzero one_route net10) = true /\
  all_bindings (trie emptied) = [] /\
  refs_get (keyRefs (trie emptied)) 0 = 0 /\
  keyToValue emptied !! 0 = None /\
  valueToKey emptied !! va = Some 0.
Proof.
  split; [exact reachable_emptied |].
  repeat split; vm_compute; reflexivity.
Qed.

(** The replacing [Insert] does not evict either: rebinding the only
    route of ["a"] to ["b"] leaves key 0 in no node, with a reference
    count of zero, and in both registry maps. *)
Example replaced_key_stays_registered :
  all_bindings (trie replaced) = [mkValue net10 1] /\
  refs_get (keyRefs (trie replaced)) 0 = 0 /\
  keyToValue replaced !! 0 = Some va /\
  valueToKey replaced !! va = Some 0.
Proof. repeat split; vm_compute; reflexivity. Qed.

(** C5.  With ["b"] left behind in [valueToKey] by an earlier [Remove],
    binding [10.0.0.0/8] to ["a"] and then to ["b"] leaves one binding,
    under key 0, and [Get 10.0.0.1] answers ["a"]. *)
Lemma C5_rebinding_lost :
  reachable vzero rebound /\
  all_bindings (trie rebound) = [mkValue net10 0] /\
  Contains net10 host10 = true /\
  Get vzero rebound host10 = (va, true).
Proof.
  split.
  { apply reach_Insert; [| reflexivity]. apply reach_Insert; [| reflexivity].
    unfold stale, Remove'. apply reach_Remove; [| reflexivity].
    apply reach_Insert; [apply reach_New | reflexivity]. }
  repeat split; vm_compute; reflexivity.
Qed.

(** C6.  A [Remove] of another route deletes the [valueToKey] entry of
    the zero value; [RemoveValue] of the zero value then finds no key
    and returns at once, and the route bound to it still answers. *)
Lemma C6_zero_value_survives :
  reachable vzero zero_orphaned /\
  bound zero_orphaned net10 vzero /\
  RemoveValue zero_orphaned vzero = zero_orphaned /\
  bound (RemoveValue zero_orphaned vzero) net10 vzero /\
  Get vzero (RemoveValue zero_orphaned vzero) host10 = (vzero, true).
Proof.
  assert (Hall : all_bindings (trie zero_orphaned) = [mkValue net10 0])
    by (vm_compute; reflexivity).
  assert (Hsame : RemoveValue zero_orphaned vzero = zero_orphaned)
    by (vm_compute; reflexivity).
  assert (Hb : bound zero_orphaned net10 vzero).
  { exists 0. split; [| vm_compute; reflexivity].
    unfold stored. rewrite Hall. now apply list_elem_of_singleton. }
  split.
  { unfold zero_orphaned, Remove'. apply reach_Remove; [| reflexivity].
    apply reach_Insert; [| reflexivity].
    apply reach_Insert; [apply reach_New | reflexivity]. }
  split; [exact Hb |]. split; [exact Hsame |].
  rewrite Hsame. split; [exact Hb |]. vm_compute. reflexivity.
Qed.

End triemap_spec.

(** * Further properties of the package *)

(** ** More about the walks of the core *)

Module triemap_walks.
Import netip netip_facts triemap triemap_facts.

(** *** insert, twice and against the stored bindings *)

Lemma set_child_twice (b : bool) (n c c' : trieNode) :
  set_child b (set_child b n c) c' = set_child b n c'.
Proof. now destruct n, b. Qed.

Lemma or_new_same (n : trieNode) : n <> Nil -> or_new n = n.
Proof. now destruct n. Qed.

Lemma insert_walk_twice (p : list bool) (nv : nodeValue) :
  forall n : trieNode,
    n <> Nil -> insert_walk p nv (insert_walk p nv n) = insert_walk p nv n.
Proof.
  induction p as [| bit rest IH]; intros n Hn; simpl.
  - now destruct n.
  - rewrite child_set_child_same by assumption.
    assert (Hx : insert_walk rest nv (or_new (child bit n)) <> Nil)
      by apply insert_walk_not_Nil, or_new_not_Nil.
    assert (Hor : or_new (insert_walk rest nv (or_new (child bit n))) =
                  insert_walk rest nv (or_new (child bit n)))
      by (apply or_new_same; assumption).
    rewrite Hor, IH by apply or_new_not_Nil.
    apply set_child_twice.
Qed.

Lemma refs_inc_dec_present (m : gmap Z Z) (k : Z) :
  is_Some (m !! k) -> refs_inc (refs_dec m k) k = m.
Proof.
  intros [x Hx]. unfold refs_inc, refs_dec, refs_get.
  rewrite lookup_insert_eq, insert_insert_eq, Hx. simpl.
  replace (x - 1 + 1) with x by lia. now apply insert_id.
Qed.

Lemma set_root_twice (t : trieMap) (a : Addr) (r r' : trieNode) (m m' : gmap Z Z) :
  set_root (set_root t a r m) a r' m' = set_root t a r' m'.
Proof. unfold set_root. now destruct (is4 a). Qed.

Lemma insert_twice (t : trieMap) (p : Prefix) (k : Z) :
  insert (insert t p k) p k = insert t p k.
Proof.
  unfold insert at 1.
  rewrite getRootNode_insert by reflexivity.
  set (R := insert_walk (path_of p) (mkValue p k) (or_new (getRootNode t (ip p)))).
  assert (HR : R <> Nil) by apply insert_walk_not_Nil, or_new_not_Nil.
  assert (Hor : or_new R = R) by now destruct R.
  rewrite Hor.
  assert (Hv : value_of (descend (path_of p) R) = Some (mkValue p k)).
  { fold (value_at (path_of p) R). unfold R.
    rewrite value_at_insert_walk by apply or_new_not_Nil.
    now rewrite decide_True. }
  rewrite Hv. cbn [key].
  assert (Hw : insert_walk (path_of p) (mkValue p k) R = R)
    by (unfold R; apply insert_walk_twice, or_new_not_Nil).
  rewrite Hw. unfold insert. fold R. rewrite set_root_twice, keyRefs_set_root.
  f_equal. apply refs_inc_dec_present.
  unfold refs_inc. rewrite lookup_insert_eq. eauto.
Qed.

Lemma stored_insert (t : trieMap) (p : Prefix) (k : Z) (nv : nodeValue) :
  trie_wf t ->
  stored (insert t p k) nv <->
  nv = mkValue p k \/
  (stored t nv /\
   (is4 (ip (prefix nv)) <> is4 (ip p) \/ path_of (prefix nv) <> path_of p)).
Proof.
  intros Hwf.
  assert (Hpl : forall f, placed f (if f then ipv4Root t else ipv6Root t))
    by (destruct Hwf; now intros []).
  unfold insert. rewrite !stored_iff. split.
  - intros (f & path & H). rewrite root_set_root in H.
    destruct (bool_decide (f = is4 (ip p))) eqn:Ef.
    + apply bool_decide_eq_true in Ef. subst f.
      rewrite value_at_insert_walk in H by apply or_new_not_Nil.
      destruct (decide (path = path_of p)) as [-> | Hne].
      * left. congruence.
      * right. rewrite value_at_or_new in H.
        split; [now exists (is4 (ip p)), path |].
        right. apply (Hpl (is4 (ip p))) in H as (_ & Hpath & _). congruence.
    + apply bool_decide_eq_false in Ef. right.
      split; [now exists f, path |].
      left. apply (Hpl f) in H as (Hf & _). congruence.
  - intros [-> | [(f & path & H) Hd]].
    + exists (is4 (ip p)), (path_of p). rewrite root_set_root.
      rewrite bool_decide_eq_true_2 by reflexivity.
      rewrite value_at_insert_walk by apply or_new_not_Nil.
      now rewrite decide_True.
    + exists f, path. rewrite root_set_root.
      destruct (Hpl f _ _ H) as (Hf & Hpath & _).
      destruct (bool_decide (f = is4 (ip p))) eqn:Ef; [| assumption].
      apply bool_decide_eq_true in Ef. subst f.
      rewrite value_at_insert_walk by apply or_new_not_Nil.
      rewrite decide_False by (destruct Hd; congruence).
      rewrite value_at_or_new. unfold getRootNode. now rewrite <- Ef.
Qed.

(** *** get sees a trie only through the values that contain the address *)

Lemma get_loop_Nil (a : Addr) (path : list bool) (b : best) :
  get_loop a path Nil b = b.
Proof. now destruct path. Qed.

Lemma check_node_relevant (a : Addr) (n1 n2 : trieNode) (b : best) :
  relevant a (value_of n1) = relevant a (value_of n2) ->
  check_node a n1 b = check_node a n2 b.
Proof.
  unfold check_node, relevant.
  destruct (value_of n1) as [nv1 |], (value_of n2) as [nv2 |];
    try destruct (Contains (prefix nv1) a); try destruct (Contains (prefix nv2) a);
    simpl; intros E; try discriminate E; try reflexivity.
  now injection E as ->.
Qed.

Lemma check_root_relevant (a : Addr) (n1 n2 : trieNode) (b : best) :
  relevant a (value_of n1) = relevant a (value_of n2) ->
  check_root a n1 b = check_root a n2 b.
Proof.
  unfold check_root, relevant.
  destruct (value_of n1) as [nv1 |], (value_of n2) as [nv2 |];
    try destruct (Contains (prefix nv1) a); try destruct (Contains (prefix nv2) a);
    simpl; intros E; try discriminate E; try reflexivity.
  now injection E as ->.
Qed.

Lemma get_loop_ext (a : Addr) :
  forall (path : list bool) (n1 n2 : trieNode) (b : best),
    (forall p, relevant a (value_at p n1) = relevant a (value_at p n2)) ->
    get_loop a path n1 b = get_loop a path n2 b.
Proof.
  induction path as [| bit rest IH]; intros n1 n2 b H; simpl; [reflexivity |].
  assert (Hc : forall p, relevant a (value_at p (child bit n1)) =
                         relevant a (value_at p (child bit n2)))
    by (intros p; apply (H (bit :: p))).
  assert (Hb : check_node a (child bit n1) b = check_node a (child bit n2) b)
    by (apply check_node_relevant, (Hc [])).
  destruct (child bit n1) as [| a0 a1 va] eqn:E1,
           (child bit n2) as [| b0 b1 vb] eqn:E2.
  - reflexivity.
  - rewrite <- Hb. change (check_node a Nil b) with b.
    rewrite <- (IH Nil (Node b0 b1 vb) b Hc). symmetry. apply get_loop_Nil.
  - rewrite Hb. change (check_node a Nil b) with b.
    rewrite (IH (Node a0 a1 va) Nil b Hc). apply get_loop_Nil.
  - rewrite Hb. now apply IH.
Qed.

(** What the facade reads of [get]: whether it hit and, if so, the key. *)
Lemma get_ext (t1 t2 : trieMap) (a : Addr) :
  (forall p, relevant a (value_at p (getRootNode t1 a)) =
             relevant a (value_at p (getRootNode t2 a))) ->
  snd (get t1 a) = snd (get t2 a) /\
  (snd (get t1 a) = true -> fst (get t1 a) = fst (get t2 a)).
Proof.
  intros H. unfold get.
  pose proof (get_loop_ext a (path_of_addr a) _ _
                (check_root a (getRootNode t1 a) (mkBest (-1) 0 false)) H) as Hl.
  assert (Hr : check_root a (getRootNode t1 a) (mkBest (-1) 0 false) =
               check_root a (getRootNode t2 a) (mkBest (-1) 0 false))
    by (apply check_root_relevant; apply (H [])).
  destruct (getRootNode t1 a) as [| a0 a1 va] eqn:E1,
           (getRootNode t2 a) as [| b0 b1 vb] eqn:E2; simpl.
  - auto.
  - rewrite <- Hr, <- Hl, get_loop_Nil. simpl. split; [reflexivity | discriminate].
  - rewrite Hl, Hr, get_loop_Nil. simpl. split; [reflexivity | discriminate].
  - rewrite Hl, Hr. auto.
Qed.

(** *** A hit of get is a matching value on the walk, and a longest one *)

Lemma get_loop_sound (a : Addr) :
  forall (path : list bool) (curr : trieNode) (b : best),
    get_loop a path curr b = b \/
    exists p rest nv,
      path = p ++ rest /\ p <> [] /\ value_at p curr = Some nv /\
      Contains (prefix nv) a = true /\
      get_loop a path curr b = mkBest (Bits (prefix nv)) (key nv) true.
Proof.
  induction path as [| bit rest IH]; intros curr b; simpl; [auto |].
  destruct (child bit curr) as [| c0 c1 v] eqn:E; [auto |].
  destruct (IH (Node c0 c1 v) (check_node a (Node c0 c1 v) b))
    as [Hk | (p & rest' & nv & Hp & Hne & Hv & Hc & Hr)].
  - rewrite Hk. unfold check_node.
    destruct (value_of (Node c0 c1 v)) as [nv |] eqn:Ev; [| auto].
    destruct (Contains (prefix nv) a) eqn:Ec; [| auto].
    destruct (longestMatchLength b <? Bits (prefix nv)); [| auto].
    right. exists [bit], rest, nv. repeat split; try assumption; try discriminate.
    unfold value_at. simpl. now rewrite E.
  - right. exists (bit :: p), rest', nv. rewrite Hr, Hp.
    repeat split; try assumption; try discriminate.
    rewrite value_at_cons. now rewrite E.
Qed.

Lemma check_node_mono (a : Addr) (n : trieNode) (b : best) :
  longestMatchLength b <= longestMatchLength (check_node a n b) /\
  forall nv, value_of n = Some nv -> Contains (prefix nv) a = true ->
             Bits (prefix nv) <= longestMatchLength (check_node a n b).
Proof.
  unfold check_node. destruct (value_of n) as [nv |]; [| split; [lia | discriminate]].
  destruct (Contains (prefix nv) a) eqn:Ec; simpl.
  - destruct (Z.ltb_spec (longestMatchLength b) (Bits (prefix nv))); simpl.
    + split; [lia |]. intros nv' [= <-] _. lia.
    + split; [lia |]. intros nv' [= <-] _. lia.
  - split; [lia |]. intros nv' [= <-] Hc. congruence.
Qed.

Lemma get_loop_max (a : Addr) :
  forall (path : list bool) (curr : trieNode) (b : best),
    longestMatchLength b <= longestMatchLength (get_loop a path curr b) /\
    forall p rest nv,
      path = p ++ rest -> p <> [] -> value_at p curr = Some nv ->
      Contains (prefix nv) a = true ->
      Bits (prefix nv) <= longestMatchLength (get_loop a path curr b).
Proof.
  induction path as [| bit rest IH]; intros curr b; simpl.
  - split; [lia |]. intros p rest' nv Hp Hne.
    symmetry in Hp. apply app_eq_nil in Hp as [-> _]. congruence.
  - destruct (child bit curr) as [| c0 c1 v] eqn:E.
    + split; [lia |]. intros [| b' p] rest' nv Hp Hne Hv; [congruence |].
      injection Hp as <- _. rewrite value_at_cons, E, value_at_Nil in Hv.
      discriminate.
    + destruct (IH (Node c0 c1 v) (check_node a (Node c0 c1 v) b)) as [Hm Hall].
      destruct (check_node_mono a (Node c0 c1 v) b) as [Hc1 Hc2].
      split; [lia |]. intros [| b' p] rest' nv Hp Hne Hv Hc; [congruence |].
      injection Hp as <- Hp. rewrite value_at_cons, E in Hv.
      destruct p as [| b'' p].
      * specialize (Hc2 nv Hv Hc). lia.
      * apply (Hall (b'' :: p) rest' nv); auto; discriminate.
Qed.

(** *** Below a root every node leads to a value *)



Lemma descend_app (p q : list bool) (n : trieNode) :
  descend (p ++ q) n = descend q (descend p n).
Proof. revert n. induction p as [| b p IH]; intros n; simpl; auto. Qed.


End triemap_walks.

(** ** Further properties of the trie map *)

Module triemap_props.
Import netip netip_facts triemap triemap_facts TrieMap_facts triemap_walks scenarios.

Lemma get_other_root (t t' : trieMap) (a : Addr) :
  getRootNode t' a = getRootNode t a -> get t' a = get t a.
Proof. unfold get. now intros ->. Qed.

Lemma getRootNode_set_root_other (t : trieMap) (a a' : Addr) (r : trieNode) (m : gmap Z Z) :
  is4 a' <> is4 a -> getRootNode (set_root t a r m) a' = getRootNode t a'.
Proof. unfold getRootNode, set_root. destruct (is4 a), (is4 a'); simpl; congruence. Qed.

Lemma getRootNode_set_root_same (t : trieMap) (a a' : Addr) (r : trieNode) (m : gmap Z Z) :
  is4 a' = is4 a -> getRootNode (set_root t a r m) a' = r.
Proof. unfold getRootNode, set_root. intros ->. now destruct (is4 a). Qed.

(** A hit of [get] carries the key of a stored value whose prefix
    contains the address. *)
Lemma get_hit_stored (t : trieMap) (a : Addr) (k : Z) :
  get t a = (k, true) ->
  exists nv, stored t nv /\ key nv = k /\ Contains (prefix nv) a = true.
Proof.
  unfold get. destruct (getRootNode t a) as [| c0 c1 v] eqn:E; [discriminate |].
  intros Hg. injection Hg as Hk Hc.
  assert (Hst : forall p nv, value_at p (Node c0 c1 v) = Some nv -> stored t nv).
  { intros p nv Hv. apply stored_iff. exists (is4 a), p.
    unfold getRootNode in E. now rewrite E. }
  destruct (get_loop_sound a (path_of_addr a) (Node c0 c1 v)
              (check_root a (Node c0 c1 v) (mkBest (-1) 0 false)))
    as [Hb | (p & rest & nv & _ & _ & Hv & Hcn & Hr)].
  - rewrite Hb in Hk, Hc. unfold check_root in Hk, Hc.
    destruct (value_of (Node c0 c1 v)) as [nv |] eqn:Ev; [| discriminate].
    destruct (Contains (prefix nv) a) eqn:Ec; [| discriminate].
    exists nv. split; [now apply (Hst []) |]. auto.
  - rewrite Hr in Hk. exists nv. split; [now apply (Hst p) |]. auto.
Qed.

Section Facade.

Context {V : Type} `{Countable V}.
Variable zero : V.



(** X2.  In every reachable state, [RemoveValue v] does nothing when
    [valueToKey] has no key for [v]; otherwise it removes exactly the
    bindings that carry the key of [v] and deletes the key and [v] from
    the registry. *)
Theorem RemoveValue_effect (t : TrieMap) (v : V) :
  reachable zero t ->
  (valueToKey t !! v = None -> RemoveValue t v = t) /\
  (forall k, valueToKey t !! v = Some k ->
     (forall nv, stored (trie (RemoveValue t v)) nv <->
                 stored (trie t) nv /\ key nv <> k) /\
     keyToValue (RemoveValue t v) !! k = None /\
     valueToKey (RemoveValue t v) !! v = None).
Proof.
  intros Hr. split.
  - intros Hn. unfold RemoveValue. now rewrite Hn.
  - intros k Hk. split; [now apply (RemoveValue_stored zero) |].
    unfold RemoveValue. rewrite Hk. simpl.
    split; apply lookup_delete_eq.
Qed.

(** X3.  Inserting the same prefix with the same value a second time
    changes nothing: not the trie, not the reference counts, not the
    registry. *)
Theorem Insert_same_twice (t : TrieMap) (p : Prefix) (v : V) :
  Insert (Insert t p v) p v = Insert t p v.
Proof.
  unfold Insert at 2 3. destruct (valueToKey t !! v) as [k |] eqn:E.
  - unfold Insert. simpl. rewrite E. now rewrite insert_twice.
  - unfold Insert. simpl. rewrite lookup_insert_eq. now rewrite insert_twice.
Qed.

(** X4.  In every reachable state, [Insert p v] stores [p] under the key
    of [v] and displaces exactly the binding that sat at the node [p]
    walks to (of the same family and with the same branches); every
    other binding stays. *)
Theorem Insert_bindings (t : TrieMap) (p : Prefix) (v : V) :
  reachable zero t ->
  prefix_ok p = true ->
  exists k,
    valueToKey (Insert t p v) !! v = Some k /\
    forall nv,
      stored (trie (Insert t p v)) nv <->
      nv = mkValue p k \/
      (stored (trie t) nv /\
       (is4 (ip (prefix nv)) <> is4 (ip p) \/ path_of (prefix nv) <> path_of p)).
Proof.
  intros Hr _. destruct (reachable_inv zero t Hr) as [Hwf _].
  destruct (trie_Insert t p v) as (k & Etr & Hk).
  exists k. split; [assumption |]. intros nv. rewrite Etr.
  now apply stored_insert.
Qed.

(** X5.  In every reachable state, [Remove p] right after [Insert p v]
    returns [true] and leaves the bindings of the state before the
    [Insert] except the one that sat at the node of [p]: a binding the
    [Insert] displaced does not come back. *)
Theorem Remove_after_Insert (t : TrieMap) (p : Prefix) (v : V) :
  reachable zero t ->
  prefix_ok p = true ->
  snd (Remove zero (Insert t p v) p) = true /\
  forall nv,
    stored (trie (fst (Remove zero (Insert t p v) p))) nv <->
    stored (trie t) nv /\
    (is4 (ip (prefix nv)) <> is4 (ip p) \/ path_of (prefix nv) <> path_of p).
Proof.
  intros Hr Hok. destruct (reachable_inv zero t Hr) as [Hwf _].
  destruct (trie_Insert t p v) as (k & Etr & _).
  destruct (Remove_core zero (Insert t p v) p) as [E1 E2]. split.
  - rewrite E2, Etr, remove_spec, getRootNode_insert by reflexivity.
    rewrite value_at_insert_walk by apply or_new_not_Nil.
    rewrite decide_True by reflexivity. simpl.
    now rewrite bool_decide_eq_true_2.
  - intros nv. rewrite E1, Etr.
    rewrite stored_after_remove by now apply trie_wf_insert.
    rewrite stored_insert by assumption. split.
    + intros [[-> | Hst] Hne]; [now simpl in Hne | assumption].
    + intros [Hst Hd]. split; [now right |].
      intros Heq. rewrite Heq in Hd. destruct Hd; congruence.
Qed.

(** X6.  On the core, for every trie: [insert] and [remove] of a prefix
    of one family leave [get] unchanged on every address of the other
    family. *)
Theorem get_other_family (t : trieMap) (p : Prefix) (k : Z) (A : Addr) :
  is4 A <> is4 (ip p) ->
  get (insert t p k) A = get t A /\
  get (fst (remove t p)) A = get t A.
Proof.
  intros Hf. split.
  - apply get_other_root. unfold insert. now apply getRootNode_set_root_other.
  - rewrite remove_spec.
    destruct (value_at _ _) as [nv |]; [| reflexivity].
    destruct (bool_decide _); [| reflexivity]. simpl.
    apply get_other_root. now apply getRootNode_set_root_other.
Qed.

(** X7.  In every reachable state, [Remove p] leaves the answer of
    [Get A] as it was whenever [p] is filed under the other family or
    does not contain [A]. *)
Theorem Remove_unrelated (t : TrieMap) (p : Prefix) (A : Addr) :
  reachable zero t ->
  prefix_ok p = true ->
  is4 A <> is4 (ip p) \/ Contains p A = false ->
  Get zero (fst (Remove zero t p)) A = Get zero t A.
Proof.
  intros Hr Hok Hun.
  assert (Hr' : reachable zero (fst (Remove zero t p))) by now apply reach_Remove.
  pose proof (reachable_refs_ok zero _ Hr') as Hrefs.
  destruct (Remove_core zero t p) as [Etr Esnd].
  destruct (snd (Remove zero t p)) eqn:Es.
  2:{ symmetry in Esnd. now rewrite (Remove_false zero t p Esnd). }
  (* the walk of [A] sees the same values before and after *)
  assert (Hrel : forall q, relevant A (value_at q (getRootNode (fst (remove (trie t) p)) A)) =
                           relevant A (value_at q (getRootNode (trie t) A))).
  { intros q. rewrite remove_spec.
    destruct (value_at (path_of p) (getRootNode (trie t) (ip p))) as [nv0 |] eqn:Ev;
      [| reflexivity].
    destruct (bool_decide (prefix nv0 = p)) eqn:Eb; [| reflexivity].
    apply bool_decide_eq_true in Eb. simpl.
    destruct (decide (is4 A = is4 (ip p))) as [Ef | Ef].
    - rewrite getRootNode_set_root_same by assumption.
      rewrite value_at_clear_at.
      assert (Eroot : getRootNode (trie t) A = getRootNode (trie t) (ip p))
        by (unfold getRootNode; now rewrite Ef).
      rewrite Eroot.
      destruct (decide (q = path_of p)) as [-> | Hq]; [| reflexivity].
      rewrite Ev. simpl. rewrite Eb.
      destruct Hun as [Hun | Hun]; [congruence | now rewrite Hun].
    - now rewrite getRootNode_set_root_other. }
  destruct (get_ext _ _ A Hrel) as [Hc Hk].
  unfold Get. rewrite Etr.
  destruct (get (fst (remove (trie t) p)) A) as [k' c'] eqn:Eg'.
  destruct (get (trie t) A) as [k c] eqn:Eg. simpl in Hc, Hk. subst c'.
  destruct c; [| reflexivity].
  rewrite <- (Hk eq_refl). f_equal. f_equal.
  (* the registry entry of the key of the hit is not evicted *)
  destruct (get_hit_stored _ _ _ Eg') as (nv & Hst & Hkey & _).
  assert (Hpos : 0 < refs_get (keyRefs (fst (remove (trie t) p))) k').
  { rewrite <- Etr, Hrefs, <- Hkey. apply key_count_pos.
    rewrite Etr. exact Hst. }
  unfold Remove. destruct (remove (trie t) p) as [tr [k0 removed]]. simpl in *.
  destruct (removed && (refs_get (keyRefs tr) k0 =? 0)) eqn:Ee; [| reflexivity].
  apply andb_prop in Ee as [_ Ez]. apply Z.eqb_eq in Ez. simpl.
  rewrite lookup_delete_ne; [reflexivity |]. intros ->. lia.
Qed.

(** X8.  In every reachable state, after [Remove p] an address that no
    stored prefix of its family other than [p] contained is not found. *)
Theorem Remove_then_miss (t : TrieMap) (p : Prefix) (A : Addr) :
  reachable zero t ->
  prefix_ok p = true ->
  (forall Q k, stored (trie t) (mkValue Q k) -> is4 (ip Q) = is4 A ->
               Contains Q A = true -> Q = p) ->
  Get zero (fst (Remove zero t p)) A = (zero, false).
Proof.
  intros Hr Hok Honly.
  assert (Hr' : reachable zero (fst (Remove zero t p))) by now apply reach_Remove.
  destruct (reachable_inv zero t Hr) as [Hwf _].
  destruct (reachable_inv zero _ Hr') as [Hwf' _].
  destruct (Remove_core zero t p) as [Etr _].
  unfold Get. destruct (get (trie (fst (Remove zero t p))) A) as [k c] eqn:Eg.
  destruct c; [| reflexivity]. exfalso.
  assert (Hs : snd (get (trie (fst (Remove zero t p))) A) = true) by now rewrite Eg.
  apply get_contains in Hs as (q & [Q k'] & Hv & Hc). simpl in Hc.
  destruct (placed_getRootNode _ A Hwf' _ _ Hv) as (Hf & _). simpl in Hf.
  assert (Hst : stored (trie (fst (Remove zero t p))) (mkValue Q k'))
    by (apply stored_iff; now exists (is4 A), q).
  rewrite Etr in Hst. apply stored_after_remove in Hst as [Hst Hne]; [| assumption].
  apply Hne. simpl. now apply (Honly Q k').
Qed.


End Facade.

(** X10.  On the core, for every trie: a hit of [get] returns the key of
    a value that sits on the walk of the address and whose prefix
    contains the address, and no value on that walk whose prefix
    contains the address has a greater bit length. *)
Theorem get_hit_longest_on_walk (t : trieMap) (A : Addr) (k : Z) :
  get t A = (k, true) ->
  exists p rest nv,
    path_of_addr A = p ++ rest /\
    value_at p (getRootNode t A) = Some nv /\
    key nv = k /\ Contains (prefix nv) A = true /\
    forall p' rest' nv',
      path_of_addr A = p' ++ rest' ->
      value_at p' (getRootNode t A) = Some nv' ->
      Contains (prefix nv') A = true ->
      Bits (prefix nv') <= Bits (prefix nv).
Proof.
  unfold get. destruct (getRootNode t A) as [| c0 c1 v] eqn:E; [discriminate |].
  remember (Node c0 c1 v) as root eqn:Eroot.
  remember (check_root A root (mkBest (-1) 0 false)) as b0 eqn:Eb0.
  intros Hg. injection Hg as Hk Hc.
  destruct (get_loop_max A (path_of_addr A) root b0) as [Hmono Hmax].
  assert (Hroot : forall nv', value_of root = Some nv' ->
                              Contains (prefix nv') A = true ->
                              b0 = mkBest (Bits (prefix nv')) (key nv') true).
  { intros nv' Hv Hcn. rewrite Eb0. unfold check_root. now rewrite Hv, Hcn. }
  destruct (get_loop_sound A (path_of_addr A) root b0)
    as [Hb | (p & rest & nv & Hp & Hne & Hv & Hcn & Hr)].
  - rewrite Hb in *.
    assert (Hex : exists nv, value_of root = Some nv /\ Contains (prefix nv) A = true).
    { rewrite Eb0 in Hc. unfold check_root in Hc.
      destruct (value_of root) as [nv |]; [| discriminate].
      destruct (Contains (prefix nv) A) eqn:Ec; [eauto | discriminate]. }
    destruct Hex as (nv & Hv & Hcn). pose proof (Hroot nv Hv Hcn) as Hb0.
    exists [], (path_of_addr A), nv. rewrite Hb0 in Hk, Hmax. simpl in Hk, Hmax.
    repeat split; auto.
    intros [| bit p'] rest' nv' Hp' Hv' Hc'.
    + unfold value_at in Hv'. simpl in Hv'. rewrite Hv in Hv'.
      injection Hv' as <-. lia.
    + apply (Hmax (bit :: p') rest' nv'); auto; discriminate.
  - rewrite Hr in *. simpl in Hk, Hmono, Hmax.
    exists p, rest, nv. repeat split; auto.
    intros [| bit p'] rest' nv' Hp' Hv' Hc'.
    + rewrite (Hroot nv' Hv' Hc') in Hmono. simpl in Hmono. lia.
    + apply (Hmax (bit :: p') rest' nv'); auto; discriminate.
Qed.

Section Depth.

Context {V : Type} `{Countable V}.
Variable zero : V.


End Depth.

(** *** The further properties at concrete maps *)

Lemma reachable_two_routes : reachable vzero two_routes.
Proof.
  apply reach_Insert; [| reflexivity].
  apply reach_Insert; [apply reach_New | reflexivity].
Defined.

Lemma all_bindings_two_routes :
  all_bindings (trie two_routes) = [mkValue net10 0; mkValue net11 1].
Proof. vm_compute. reflexivity. Defined.

Lemma reachable_shared_value : reachable vzero shared_value.
Proof.
  apply reach_Insert; [| reflexivity].
  apply reach_Insert; [apply reach_New | reflexivity].
Defined.

Lemma reachable_route : forall p : Prefix,
  prefix_ok p = true -> reachable vzero (Insert fresh p va).
Proof. intros p Hp. apply reach_Insert; [apply reach_New | exact Hp]. Defined.


(** X2 at the same map and its value. *)
Lemma RemoveValue_effect_witness :
  (valueToKey shared_value !! va = None -> RemoveValue shared_value va = shared_value) /\
  (forall k, valueToKey shared_value !! va = Some k ->
     (forall nv, stored (trie (RemoveValue shared_value va)) nv <->
                 stored (trie shared_value) nv /\ key nv <> k) /\
     keyToValue (RemoveValue shared_value va) !! k = None /\
     valueToKey (RemoveValue shared_value va) !! va = None).
Proof. apply (RemoveValue_effect vzero shared_value va). exact reachable_shared_value. Defined.

(** X4 at a second route added to the single route. *)
Lemma Insert_bindings_witness :
  exists k,
    valueToKey (Insert one_route net11 vb) !! vb = Some k /\
    forall nv,
      stored (trie (Insert one_route net11 vb)) nv <->
      nv = mkValue net11 k \/
      (stored (trie one_route) nv /\
       (is4 (ip (prefix nv)) <> is4 (ip net11) \/
        path_of (prefix nv) <> path_of net11)).
Proof.
  apply (Insert_bindings vzero one_route net11 vb).
  - apply (reachable_route net10). reflexivity.
  - reflexivity.
Defined.

(** X5 at [192.95.5.65/27] inserted over [192.95.5.64/27] and removed. *)
Lemma Remove_after_Insert_witness :
  snd (Remove vzero (Insert route64 net65 vb) net65) = true /\
  forall nv,
    stored (trie (fst (Remove vzero (Insert route64 net65 vb) net65))) nv <->
    stored (trie route64) nv /\
    (is4 (ip (prefix nv)) <> is4 (ip net65) \/ path_of (prefix nv) <> path_of net65).
Proof.
  apply (Remove_after_Insert vzero route64 net65 vb).
  - apply (reachable_route net64). reflexivity.
  - reflexivity.
Defined.

(** X6 at [::/0] against the IPv4 address [10.0.0.1]. *)
Lemma get_other_family_witness :
  get (insert (trie one_route) all_ipv6 7) host10 = get (trie one_route) host10 /\
  get (fst (remove (trie one_route) all_ipv6)) host10 = get (trie one_route) host10.
Proof.
  apply (get_other_family (trie one_route) all_ipv6 7 host10).
  vm_compute. discriminate.
Defined.

(** X7 at the removal of [10.0.0.0/8], seen from [11.0.0.1]. *)
Lemma Remove_unrelated_witness :
  Get vzero (fst (Remove vzero two_routes net10)) host11 = Get vzero two_routes host11.
Proof.
  apply (Remove_unrelated vzero two_routes net10 host11).
  - exact reachable_two_routes.
  - reflexivity.
  - right. vm_compute. reflexivity.
Defined.

(** X8 at the removal of [10.0.0.0/8], seen from [10.0.0.1]. *)
Lemma Remove_then_miss_witness :
  Get vzero (fst (Remove vzero two_routes net10)) host10 = (vzero, false).
Proof.
  apply (Remove_then_miss vzero two_routes net10 host10).
  - exact reachable_two_routes.
  - reflexivity.
  - intros Q k Hst _ Hc. unfold stored in Hst.
    rewrite all_bindings_two_routes in Hst.
    apply elem_of_cons in Hst as [Hst | Hst].
    + now injection Hst as -> _.
    + apply list_elem_of_singleton in Hst. injection Hst as -> _.
      vm_compute in Hc. discriminate Hc.
Defined.


(** X10 at [52.93.127.173] under the /31 and the /32. *)
Lemma get_hit_longest_on_walk_witness :
  exists p rest nv,
    path_of_addr host173 = p ++ rest /\
    value_at p (getRootNode (trie nested) host173) = Some nv /\
    key nv = 1 /\ Contains (prefix nv) host173 = true /\
    forall p' rest' nv',
      path_of_addr host173 = p' ++ rest' ->
      value_at p' (getRootNode (trie nested) host173) = Some nv' ->
      Contains (prefix nv') host173 = true ->
      Bits (prefix nv') <= Bits (prefix nv).
Proof.
  apply (get_hit_longest_on_walk (trie nested) host173 1).
  vm_compute. reflexivity.
Defined.


End triemap_props.

(** ** Package address: filtering by family *)

Module address_props.
Import netip address.

Lemma fold_append_filter (f : Addr -> bool) (addrs acc : list Addr) :
  fold_left (fun out a => if f a then out ++ [a] else out) addrs acc =
  acc ++ List.filter f addrs.
Proof.
  revert acc. induction addrs as [| a addrs IH]; intros acc; simpl.
  - now rewrite app_nil_r.
  - rewrite IH. destruct (f a); [| reflexivity].
    now rewrite <- app_assoc.
Qed.

Lemma filterByIPv4_filter (addrs : list Addr) :
  filterByIPv4 addrs = List.filter Is4 addrs.
Proof. unfold filterByIPv4. now rewrite (fold_append_filter Is4). Qed.

Lemma filterByIPv6_filter (addrs : list Addr) :
  filterByIPv6 addrs = List.filter Is6 addrs.
Proof. unfold filterByIPv6. now rewrite (fold_append_filter Is6). Qed.

Lemma Is4_not_Is6 (a : Addr) : Is4 a = true -> Is6 a = false.
Proof.
  unfold Is4, Is6. intros H4. rewrite H4. now rewrite andb_false_r.
Qed.

Lemma filter_twice (f : Addr -> bool) (l : list Addr) :
  List.filter f (List.filter f l) = List.filter f l.
Proof.
  induction l as [| a l IH]; simpl; [reflexivity |].
  destruct (f a) eqn:E; simpl; [| assumption]. now rewrite E, IH.
Qed.

Lemma filter_none (f g : Addr -> bool) (l : list Addr) :
  (forall a, f a = true -> g a = false) ->
  List.filter g (List.filter f l) = [].
Proof.
  intros H. induction l as [| a l IH]; simpl; [reflexivity |].
  destruct (f a) eqn:E; simpl; [| assumption]. now rewrite (H a E).
Qed.

Lemma FilterByNetwork_keeps_aux (addrs : list Addr) :
  FilterByNetwork addrs "ip4" = List.filter Is4 addrs /\
  FilterByNetwork addrs "ip6" = List.filter Is6 addrs.
Proof.
  unfold FilterByNetwork. simpl.
  split; [apply filterByIPv4_filter | apply filterByIPv6_filter].
Qed.

(** X12.  [FilterByNetwork] returns the addresses themselves for ["ip"]
    and keeps, in their order and with their repetitions, exactly the
    IPv4 addresses for ["ip4"] and exactly the IPv6 addresses for
    ["ip6"]. *)
Theorem FilterByNetwork_keeps (addrs : list Addr) :
  FilterByNetwork addrs "ip" = addrs /\
  FilterByNetwork addrs "ip4" = List.filter Is4 addrs /\
  FilterByNetwork addrs "ip6" = List.filter Is6 addrs.
Proof.
  unfold FilterByNetwork. simpl.
  split; [reflexivity |]. split; [apply filterByIPv4_filter | apply filterByIPv6_filter].
Qed.

(** X13.  The answers for ["ip4"] and ["ip6"] together hold every
    address but the zero [Addr], each as often as it was given: the zero
    address belongs to neither family and is dropped by both. *)
Theorem FilterByNetwork_partition (addrs : list Addr) :
  Permutation
    (FilterByNetwork addrs "ip4" ++ FilterByNetwork addrs "ip6")
    (List.filter (fun a => negb (bool_decide (z a = z0))) addrs).
Proof.
  destruct (FilterByNetwork_keeps_aux addrs) as (E4 & E6).
  rewrite E4, E6. clear E4 E6.
  induction addrs as [| a addrs IH]; simpl; [constructor |].
  unfold Is4 at 1, Is6 at 1.
  destruct (z a) eqn:Ez; simpl.
  - exact IH.
  - now constructor.
  - rewrite <- Permutation_middle. now constructor.
  - rewrite <- Permutation_middle. now constructor.
Qed.

(** X14.  An IPv4-mapped IPv6 address of the input is kept for ["ip6"]
    and dropped for ["ip4"], although the trie map files the same
    address under its IPv4 root. *)
Theorem FilterByNetwork_mapped (addrs : list Addr) (a : Addr) :
  In a addrs ->
  Is4In6 a = true ->
  In a (FilterByNetwork addrs "ip6") /\
  ~ In a (FilterByNetwork addrs "ip4") /\
  triemap.is4 a = true.
Proof.
  intros Hin Hm. destruct (FilterByNetwork_keeps_aux addrs) as (E4 & E6).
  rewrite E4, E6.
  assert (H6 : Is6 a = true)
    by (unfold Is4In6 in Hm; now destruct (Is6 a)).
  assert (H4 : Is4 a = false).
  { unfold Is6 in H6. unfold Is4.
    destruct (bool_decide (z a = z4)); [| reflexivity].
    now rewrite andb_false_r in H6. }
  split; [apply filter_In; auto |]. split.
  - intros Hf. apply filter_In in Hf as [_ Hf]. congruence.
  - unfold triemap.is4, Unmap. now rewrite Hm.
Qed.

(** X15.  Filtering an answer of [FilterByNetwork] again by the same
    network changes nothing, whatever the network name, and filtering
    the answer for one family by the other family leaves nothing. *)
Theorem FilterByNetwork_again (addrs : list Addr) (network : string) :
  FilterByNetwork (FilterByNetwork addrs network) network =
  FilterByNetwork addrs network /\
  FilterByNetwork (FilterByNetwork addrs "ip4") "ip6" = [] /\
  FilterByNetwork (FilterByNetwork addrs "ip6") "ip4" = [].
Proof.
  destruct (FilterByNetwork_keeps_aux addrs) as (E4 & E6).
  split; [| split].
  - unfold FilterByNetwork.
    destruct (String.eqb network "ip"); [reflexivity |].
    destruct (String.eqb network "ip4").
    { rewrite !filterByIPv4_filter. apply filter_twice. }
    destruct (String.eqb network "ip6"); [| reflexivity].
    rewrite !filterByIPv6_filter. apply filter_twice.
  - rewrite E4.
    destruct (FilterByNetwork_keeps_aux (List.filter Is4 addrs)) as (_ & ->).
    apply filter_none, Is4_not_Is6.
  - rewrite E6.
    destruct (FilterByNetwork_keeps_aux (List.filter Is6 addrs)) as (-> & _).
    apply filter_none. intros a H6. destruct (Is4 a) eqn:H4; [| reflexivity].
    apply Is4_not_Is6 in H4. congruence.
Qed.

(** X14 at [10.0.0.1] and [::ffff:10.0.0.1]. *)
Lemma FilterByNetwork_mapped_witness :
  In scenarios.mapped_host10
     (FilterByNetwork [scenarios.host10; scenarios.mapped_host10] "ip6") /\
  ~ In scenarios.mapped_host10
       (FilterByNetwork [scenarios.host10; scenarios.mapped_host10] "ip4") /\
  triemap.is4 scenarios.mapped_host10 = true.
Proof.
  apply (FilterByNetwork_mapped [scenarios.host10; scenarios.mapped_host10]
           scenarios.mapped_host10).
  - right. left. reflexivity.
  - vm_compute. reflexivity.
Defined.

End address_props.

(** ** Package cidr: generated prefixes and host numbers *)

Module cidr_props.
Import netip netip_facts cidr.

(** *** Bits of small numbers *)

Lemma testbit_small (v n i : Z) :
  0 <= v < 2 ^ n -> n <= i -> Z.testbit v i = false.
Proof.
  intros [Hv0 Hv] Hi. destruct (Z.eq_dec v 0) as [-> | Hne]; [apply Z.bits_0 |].
  apply Z.bits_above_log2; [assumption |].
  assert (Hn : 0 < n).
  { destruct (Z.lt_ge_cases 0 n) as [| Hle]; [assumption |].
    assert (2 ^ n <= 1); [| lia].
    destruct (Z.eq_dec n 0) as [-> | ]; [simpl; lia |].
    rewrite Z.pow_neg_r by lia. lia. }
  assert (Z.log2 v < n) by (apply Z.log2_lt_pow2; lia). lia.
Qed.

Lemma lor_shiftl_add (c n v : Z) :
  0 <= n -> 0 <= v < 2 ^ n -> Z.lor (Z.shiftl c n) v = c * 2 ^ n + v.
Proof.
  intros Hn Hv.
  assert (Hd : Z.land (Z.shiftl c n) v = 0).
  { apply Z.bits_inj'. intros i Hi. rewrite Z.land_spec, Z.bits_0.
    destruct (Z.lt_ge_cases i n) as [Hlt | Hge].
    - now rewrite Z.shiftl_spec_low.
    - rewrite (testbit_small v n i) by assumption. apply andb_false_r. }
  rewrite <- Z.lxor_lor, <- Z.add_nocarry_lxor by assumption.
  now rewrite Z.shiftl_mul_pow2.
Qed.

Lemma testbit_div_pow2 (x h j : Z) :
  0 <= h -> 0 <= j -> Z.testbit (x / 2 ^ h) j = Z.testbit x (j + h).
Proof.
  intros Hh Hj. rewrite <- Z.shiftr_div_pow2 by assumption.
  now apply Z.shiftr_spec.
Qed.

Lemma div_pow2_small (x h b : Z) :
  0 <= h -> 0 <= b -> 0 <= x < 2 ^ (h + b) -> 0 <= x / 2 ^ h < 2 ^ b.
Proof.
  intros Hh Hb [Hx0 Hx]. rewrite Z.pow_add_r in Hx by assumption.
  assert (0 < 2 ^ h) by (apply Z.pow_pos_nonneg; lia).
  split; [apply Z.div_pos; lia |].
  apply Z.div_lt_upper_bound; lia.
Qed.

(** Two [h+b]-bit numbers agree under the mask of the top [b] bits
    exactly when they agree after dropping the low [h] bits. *)
Lemma mask_top_agree (x v h b : Z) :
  0 <= h -> 0 <= b -> 0 <= x < 2 ^ (h + b) -> 0 <= v < 2 ^ (h + b) ->
  (Z.land (Z.lxor x v) (Z.shiftl (Z.ones b) h) =? 0) = (x / 2 ^ h =? v / 2 ^ h).
Proof.
  intros Hh Hb Hx Hv.
  destruct (Z.eqb_spec (x / 2 ^ h) (v / 2 ^ h)) as [Heq | Hne].
  - apply Z.eqb_eq, Z.bits_inj'. intros i Hi.
    rewrite Z.land_spec, Z.lxor_spec, Z.bits_0.
    destruct (Z.lt_ge_cases i h) as [Hlt | Hge].
    + rewrite Z.shiftl_spec_low by assumption. apply andb_false_r.
    + replace i with (i - h + h) by lia.
      rewrite <- !testbit_div_pow2 by lia. rewrite Heq.
      now rewrite xorb_nilpotent.
  - apply Z.eqb_neq. intros H0. apply Hne, Z.bits_inj'. intros j Hj.
    destruct (Z.lt_ge_cases j b) as [Hlt | Hge].
    + assert (Hbit : Z.testbit (Z.land (Z.lxor x v) (Z.shiftl (Z.ones b) h)) (j + h)
                     = false) by (rewrite H0; apply Z.bits_0).
      rewrite Z.land_spec, Z.lxor_spec, Z.shiftl_spec in Hbit by lia.
      replace (j + h - h) with j in Hbit by lia.
      rewrite Z.ones_spec_low, andb_true_r in Hbit by lia.
      rewrite !testbit_div_pow2 by lia. now apply xorb_eq in Hbit.
    + rewrite !(testbit_small _ b j); auto using div_pow2_small.
Qed.

(** The same for the comparison of IPv4 addresses, which shifts instead
    of masking. *)
Lemma shift_top_agree (x v h : Z) :
  0 <= h <= 32 -> 0 <= x < 2 ^ 32 -> 0 <= v < 2 ^ 32 ->
  (Z.land (Z.shiftr (Z.lxor x v) h) (Z.ones 32) =? 0) = (x / 2 ^ h =? v / 2 ^ h).
Proof.
  intros Hh Hx Hv.
  destruct (Z.eqb_spec (x / 2 ^ h) (v / 2 ^ h)) as [Heq | Hne].
  - apply Z.eqb_eq, Z.bits_inj'. intros i Hi.
    rewrite Z.land_spec, Z.shiftr_spec, Z.lxor_spec, Z.bits_0 by assumption.
    rewrite <- !testbit_div_pow2 by lia. rewrite Heq.
    now rewrite xorb_nilpotent.
  - apply Z.eqb_neq. intros H0. apply Hne, Z.bits_inj'. intros j Hj.
    destruct (Z.lt_ge_cases j 32) as [Hlt | Hge].
    + assert (Hbit : Z.testbit (Z.land (Z.shiftr (Z.lxor x v) h) (Z.ones 32)) j
                     = false) by (rewrite H0; apply Z.bits_0).
      rewrite Z.land_spec, Z.shiftr_spec, Z.lxor_spec in Hbit by lia.
      rewrite Z.ones_spec_low, andb_true_r in Hbit by lia.
      rewrite !testbit_div_pow2 by lia. now apply xorb_eq in Hbit.
    + assert (Hs : forall y, 0 <= y < 2 ^ 32 -> Z.testbit (y / 2 ^ h) j = false).
      { intros y Hy. apply (testbit_small _ 32); [| assumption].
        assert (0 < 2 ^ h) by (apply Z.pow_pos_nonneg; lia).
        split; [apply Z.div_pos; lia |].
        apply Z.div_lt_upper_bound; [lia |]. nia. }
      now rewrite !Hs.
Qed.

(** Adding [n] to [v] keeps the bits above the low [h] exactly while the
    low [h] bits do not overflow. *)
Lemma div_pow2_add (v n h : Z) :
  0 <= h -> 0 <= v -> 0 <= n ->
  ((v + n) / 2 ^ h =? v / 2 ^ h) = (v mod 2 ^ h + n <? 2 ^ h).
Proof.
  intros Hh Hv Hn.
  assert (Hp : 0 < 2 ^ h) by (apply Z.pow_pos_nonneg; lia).
  pose proof (Z.div_mod v (2 ^ h) ltac:(lia)) as Hdm.
  pose proof (Z.mod_pos_bound v (2 ^ h) Hp) as Hm.
  assert (Hsum : (v + n) / 2 ^ h = v / 2 ^ h + (v mod 2 ^ h + n) / 2 ^ h).
  { replace (v + n) with ((v / 2 ^ h) * 2 ^ h + (v mod 2 ^ h + n)) by lia.
    rewrite Z.div_add_l by lia. reflexivity. }
  rewrite Hsum.
  destruct (Z.ltb_spec (v mod 2 ^ h + n) (2 ^ h)) as [Hlt | Hge].
  - rewrite (Z.div_small (v mod 2 ^ h + n)) by lia. apply Z.eqb_eq. lia.
  - apply Z.eqb_neq.
    assert (1 <= (v mod 2 ^ h + n) / 2 ^ h); [| lia].
    apply Z.div_le_lower_bound; lia.
Qed.

(** *** Generate *)

Lemma Generate_addr (r : Z) :
  0 <= r < 2 ^ 40 ->
  Z.lor (Z.shiftl 0xfd 120) (Z.shiftl r 80) = 0xfd * 2 ^ 120 + r * 2 ^ 80 /\
  0 <= r * 2 ^ 80 < 2 ^ 120.
Proof.
  intros Hr.
  assert (Hs : 0 <= r * 2 ^ 80 < 2 ^ 120).
  { change (2 ^ 120) with (2 ^ 40 * 2 ^ 80). nia. }
  split; [| assumption].
  rewrite (Z.shiftl_mul_pow2 r 80) by lia.
  now apply lor_shiftl_add.
Qed.

(** X16.  Whatever five bytes the random source delivers, [Generate]
    returns without error a valid /48 prefix inside [fd00::/8] whose low
    80 bits are zero and which the trie map accepts as an IPv6 prefix;
    and different random bytes give different prefixes. *)
Theorem Generate_ula (r : Z) :
  0 <= r < 2 ^ 40 ->
  snd (Generate (Some r)) = None /\
  IsValid (fst (Generate (Some r))) = true /\
  Bits (fst (Generate (Some r))) = 48 /\
  Contains (PrefixFrom (AddrFrom16 (Z.shiftl 0xfd 120)) 8)
           (ip (fst (Generate (Some r)))) = true /\
  Z.land (addr (ip (fst (Generate (Some r))))) (Z.ones 80) = 0 /\
  Is4In6 (ip (fst (Generate (Some r)))) = false /\
  triemap.prefix_ok (fst (Generate (Some r))) = true /\
  (forall r', 0 <= r' < 2 ^ 40 ->
              Generate (Some r') = Generate (Some r) -> r' = r).
Proof.
  intros Hr. destruct (Generate_addr r Hr) as [Ha Hs].
  assert (Hmap : Is4In6 (AddrFrom16 (Z.lor (Z.shiftl 0xfd 120) (Z.shiftl r 80))) = false).
  { unfold Is4In6, AddrFrom16, Is6, hi. cbn [addr z].
    rewrite Ha, Z.shiftr_div_pow2, Z.land_ones by lia.
    replace (0xfd * 2 ^ 120 + r * 2 ^ 80)
      with ((0xfd * 2 ^ 56 + r * 2 ^ 16) * 2 ^ 64)
      by (change (2 ^ 120) with (2 ^ 56 * 2 ^ 64);
          change (2 ^ 80) with (2 ^ 16 * 2 ^ 64); ring).
    rewrite Z.div_mul by lia.
    assert (Hb : 0 < 0xfd * 2 ^ 56 + r * 2 ^ 16 < 2 ^ 64).
    { change (2 ^ 64) with (2 ^ 8 * 2 ^ 56).
      change (2 ^ 56) with (2 ^ 40 * 2 ^ 16) at 2. nia. }
    rewrite Z.mod_small by lia.
    destruct (Z.eqb_spec (0xfd * 2 ^ 56 + r * 2 ^ 16) 0) as [E | _]; [lia |].
    cbn. reflexivity. }
  unfold Generate. cbn [fst snd].
  split; [reflexivity |]. split; [reflexivity |]. split; [reflexivity |].
  split; [| split; [| split; [| split]]].
  - assert (Hc : Contains (PrefixFrom (AddrFrom16 (Z.shiftl 0xfd 120)) 8)
                   (ip (PrefixFrom
                          (AddrFrom16 (Z.lor (Z.shiftl 0xfd 120) (Z.shiftl r 80))) 48)) =
                 (Z.land (Z.lxor (Z.lor (Z.shiftl 0xfd 120) (Z.shiftl r 80))
                                 (Z.shiftl 0xfd 120))
                         (Z.shiftl (Z.ones 8) 120) =? 0))
      by reflexivity.
    rewrite Hc, (mask_top_agree _ _ 120 8); try lia.
    + apply Z.eqb_eq. rewrite Ha.
      rewrite Z.div_add_l by lia. rewrite (Z.div_small (r * 2 ^ 80)) by lia.
      reflexivity.
    + split; [apply Z.shiftl_nonneg; lia | reflexivity].
  - cbn [PrefixFrom ip]. unfold withoutZone. cbn [hasZone AddrFrom16 z addr].
    rewrite Ha, Z.land_ones by lia.
    replace (0xfd * 2 ^ 120 + r * 2 ^ 80) with ((0xfd * 2 ^ 40 + r) * 2 ^ 80)
      by (change (2 ^ 120) with (2 ^ 40 * 2 ^ 80); ring).
    apply Z.mod_mul. lia.
  - exact Hmap.
  - unfold triemap.prefix_ok. apply andb_true_intro. split; [reflexivity |].
    unfold triemap.addrToUint128, triemap.is4, Unmap.
    cbn [PrefixFrom ip]. unfold withoutZone. cbn [hasZone AddrFrom16 z].
    fold (AddrFrom16 (Z.lor (Z.shiftl 0xfd 120) (Z.shiftl r 80))).
    rewrite Hmap. reflexivity.
  - intros r' Hr' Heq. destruct (Generate_addr r' Hr') as [Ha' _].
    injection Heq as Heq. rewrite Ha, Ha' in Heq. lia.
Qed.

(** X16 at the random bytes [12 34 56 78 9a]. *)
Lemma Generate_ula_witness :
  snd (Generate (Some 0x123456789a)) = None /\
  IsValid (fst (Generate (Some 0x123456789a))) = true /\
  Bits (fst (Generate (Some 0x123456789a))) = 48 /\
  Contains (PrefixFrom (AddrFrom16 (Z.shiftl 0xfd 120)) 8)
           (ip (fst (Generate (Some 0x123456789a)))) = true /\
  Z.land (addr (ip (fst (Generate (Some 0x123456789a))))) (Z.ones 80) = 0 /\
  Is4In6 (ip (fst (Generate (Some 0x123456789a)))) = false /\
  triemap.prefix_ok (fst (Generate (Some 0x123456789a))) = true /\
  (forall r', 0 <= r' < 2 ^ 40 ->
              Generate (Some r') = Generate (Some 0x123456789a) -> r' = 0x123456789a).
Proof. apply (Generate_ula 0x123456789a). simpl. lia. Defined.

(** *** Host *)

Lemma lo_AddrFrom4_be (v : Z) :
  0 <= v < 2 ^ 32 -> lo (AddrFrom4_be v) = 0xffff * 2 ^ 32 + v.
Proof.
  intros Hv. unfold lo, AddrFrom4_be. cbn [addr].
  change 0xffff00000000 with (Z.shiftl 0xffff 32).
  rewrite lor_shiftl_add, Z.land_ones by lia.
  apply Z.mod_small. change (2 ^ 64) with (2 ^ 32 * 2 ^ 32). lia.
Qed.

Lemma As4_AddrFrom4_be (v : Z) :
  0 <= v < 2 ^ 32 -> As4 (AddrFrom4_be v) = v.
Proof.
  intros Hv. unfold As4. rewrite lo_AddrFrom4_be, Z.land_ones by lia.
  rewrite Z.add_comm, Z.mod_add by lia. now apply Z.mod_small.
Qed.

Lemma lxor_same_high (c n x v : Z) :
  0 <= n -> 0 <= x < 2 ^ n -> 0 <= v < 2 ^ n ->
  Z.lxor (c * 2 ^ n + x) (c * 2 ^ n + v) = Z.lxor x v.
Proof.
  intros Hn Hx Hv. rewrite <- !lor_shiftl_add by assumption.
  apply Z.bits_inj'. intros i Hi. rewrite !Z.lxor_spec, !Z.lor_spec.
  destruct (Z.lt_ge_cases i n) as [Hlt | Hge].
  - now rewrite Z.shiftl_spec_low.
  - rewrite (testbit_small x n i), (testbit_small v n i) by assumption.
    rewrite !orb_false_r. apply xorb_nilpotent.
Qed.

Lemma AsSlice_padded_AddrFrom16 (v : Z) :
  0 <= v < 2 ^ 128 -> AsSlice_padded (AddrFrom16 v) = v.
Proof.
  intros Hv. unfold AsSlice_padded, AddrFrom16, As16_hi, As16_lo, hi, lo.
  cbn [z addr].
  assert (Hq : 0 <= v / 2 ^ 64 < 2 ^ 64).
  { split; [apply Z.div_pos; lia |].
    apply Z.div_lt_upper_bound; [lia |].
    change (2 ^ 128) with (2 ^ 64 * 2 ^ 64) in Hv. lia. }
  rewrite Z.shiftr_div_pow2, !Z.land_ones by lia.
  rewrite (Z.mod_small (v / 2 ^ 64)) by assumption.
  rewrite lor_shiftl_add by (try lia; apply Z.mod_pos_bound; lia).
  pose proof (Z.div_mod v (2 ^ 64) ltac:(lia)). lia.
Qed.

Section Host.

Variable Add : Z -> Z -> Z.
Hypothesis Add_sum :
  forall a b, 0 <= a -> 0 <= b -> a + b < 2 ^ 128 -> Add a b = a + b.

(** X17.  For an IPv4 prefix with address [v] and a host number [n >= 0]
    that does not carry past 32 bits, [Host] counts from the address of
    the prefix itself, host bits included: it returns [v + n] while the
    low [32 - bits] bits do not overflow, and the out-of-range error
    otherwise. *)
Theorem Host_ipv4 (v bits n : Z) :
  0 <= v < 2 ^ 32 ->
  0 <= bits <= 32 ->
  0 <= n ->
  v + n < 2 ^ 32 ->
  Host Add (PrefixFrom (AddrFrom4_be v) bits) n =
  if v mod 2 ^ (32 - bits) + n <? 2 ^ (32 - bits)
  then (AddrFrom4_be (v + n), None)
  else (AddrZero, Some ErrHostNumberOutOfRange).
Proof.
  intros Hv Hb Hn Hsum.
  assert (Hp : PrefixFrom (AddrFrom4_be v) bits = mkPrefix (AddrFrom4_be v) (bits + 1)).
  { unfold PrefixFrom, withoutZone, AddrFrom4_be, hasZone, BitLen. cbn [z addr].
    assert (E1 : (0 <=? bits) = true) by (apply Z.leb_le; lia).
    assert (E2 : (bits <=? 32) = true) by (apply Z.leb_le; lia).
    now rewrite E1, E2. }
  rewrite Hp. unfold Host. cbn [ip].
  assert (Hslice : AsSlice_padded (AddrFrom4_be v) = v)
    by (unfold AsSlice_padded; cbn [AddrFrom4_be z]; now apply As4_AddrFrom4_be).
  assert (Hu : uint64 n = n)
    by (unfold uint64; apply Z.mod_small;
        change (2 ^ 64) with (2 ^ 32 * 2 ^ 32); lia).
  rewrite Hslice, Hu. unfold uint128.From64.
  rewrite Add_sum by (try lia; change (2 ^ 128) with (2 ^ 96 * 2 ^ 32); lia).
  assert (Hhi : Z.shiftr (v + n) 64 = 0).
  { rewrite Z.shiftr_div_pow2 by lia. apply Z.div_small.
    change (2 ^ 64) with (2 ^ 32 * 2 ^ 32). lia. }
  rewrite Hhi. cbn [Z.eqb].
  assert (Hlow : Z.land (v + n) (Z.ones 32) = v + n)
    by (rewrite Z.land_ones by lia; apply Z.mod_small; lia).
  rewrite Hlow.
  assert (Hc : Contains (mkPrefix (AddrFrom4_be v) (bits + 1)) (AddrFrom4_be (v + n)) =
               (v mod 2 ^ (32 - bits) + n <? 2 ^ (32 - bits))).
  { unfold Contains, IsValid, Bits, BitLen, hasZone, Is4. cbn [ip bitsPlusOne].
    cbn [AddrFrom4_be z].
    assert (E1 : (0 <? bits + 1) = true) by (apply Z.ltb_lt; lia).
    rewrite E1. cbn [negb orb Z.eqb andb].
    rewrite bool_decide_eq_true_2 by reflexivity.
    replace (bits + 1 - 1) with bits by lia.
    rewrite land_63_small by lia.
    rewrite !lo_AddrFrom4_be by lia.
    rewrite lxor_same_high by lia.
    rewrite shift_top_agree by lia.
    apply div_pow2_add; lia. }
  rewrite Hc. reflexivity.
Qed.

(** X18.  For an IPv6 prefix whose address has a zero upper half (such
    as [::/0] or [::1/128]) and a host number [n >= 0] that keeps the
    sum below [2^64], [Host] always answers the out-of-range error: it
    builds an IPv4 address from the sum, which no IPv6 prefix contains. *)
Theorem Host_ipv6_zero_upper_half (v bits n : Z) :
  0 <= v ->
  0 <= n ->
  v + n < 2 ^ 64 ->
  Host Add (PrefixFrom (AddrFrom16 v) bits) n =
  (AddrZero, Some ErrHostNumberOutOfRange).
Proof.
  intros Hv Hn Hsum.
  assert (Hip : ip (PrefixFrom (AddrFrom16 v) bits) = AddrFrom16 v) by reflexivity.
  unfold Host. rewrite Hip.
  rewrite AsSlice_padded_AddrFrom16
    by (change (2 ^ 128) with (2 ^ 64 * 2 ^ 64); lia).
  assert (Hu : uint64 n = n) by (unfold uint64; apply Z.mod_small; lia).
  rewrite Hu. unfold uint128.From64.
  rewrite Add_sum by (try lia; change (2 ^ 128) with (2 ^ 64 * 2 ^ 64); lia).
  assert (Hhi : Z.shiftr (v + n) 64 = 0)
    by (rewrite Z.shiftr_div_pow2 by lia; apply Z.div_small; lia).
  rewrite Hhi. cbn [Z.eqb].
  assert (Hc : Contains (PrefixFrom (AddrFrom16 v) bits)
                        (AddrFrom4_be (Z.land (v + n) (Z.ones 32))) = false).
  { unfold Contains. rewrite Hip.
    destruct (negb (IsValid (PrefixFrom (AddrFrom16 v) bits))
              || hasZone (AddrFrom4_be (Z.land (v + n) (Z.ones 32))));
      reflexivity. }
  now rewrite Hc.
Qed.

(** X19.  For an IPv6 prefix with address [v] of non-zero upper half and
    a host number [0 <= n < 2^64] whose sum with [v] fits 128 bits,
    [Host] returns [v + n] while the low [128 - bits] bits do not
    overflow, and the out-of-range error otherwise. *)
Theorem Host_ipv6 (v bits n : Z) :
  2 ^ 64 <= v ->
  0 <= n < 2 ^ 64 ->
  v + n < 2 ^ 128 ->
  0 <= bits <= 128 ->
  Host Add (PrefixFrom (AddrFrom16 v) bits) n =
  if v mod 2 ^ (128 - bits) + n <? 2 ^ (128 - bits)
  then (AddrFrom16 (v + n), None)
  else (AddrZero, Some ErrHostNumberOutOfRange).
Proof.
  intros Hv Hn Hsum Hb.
  assert (Hp : PrefixFrom (AddrFrom16 v) bits = mkPrefix (AddrFrom16 v) (bits + 1)).
  { unfold PrefixFrom, withoutZone, AddrFrom16, hasZone, BitLen. cbn [z addr].
    assert (E1 : (0 <=? bits) = true) by (apply Z.leb_le; lia).
    assert (E2 : (bits <=? 128) = true) by (apply Z.leb_le; lia).
    now rewrite E1, E2. }
  rewrite Hp. unfold Host. cbn [ip].
  rewrite AsSlice_padded_AddrFrom16 by lia.
  assert (Hu : uint64 n = n) by (unfold uint64; apply Z.mod_small; lia).
  rewrite Hu. unfold uint128.From64. rewrite Add_sum by lia.
  assert (Hhi : (Z.shiftr (v + n) 64 =? 0) = false).
  { apply Z.eqb_neq. rewrite Z.shiftr_div_pow2 by lia.
    assert (1 <= (v + n) / 2 ^ 64); [| lia].
    apply Z.div_le_lower_bound; lia. }
  rewrite Hhi.
  assert (Hc : Contains (mkPrefix (AddrFrom16 v) (bits + 1)) (AddrFrom16 (v + n)) =
               (v mod 2 ^ (128 - bits) + n <? 2 ^ (128 - bits))).
  { unfold Contains, IsValid, Bits, BitLen, hasZone, Is4, mask6. cbn [ip bitsPlusOne].
    cbn [AddrFrom16 z addr].
    assert (E1 : (0 <? bits + 1) = true) by (apply Z.ltb_lt; lia).
    rewrite E1. cbn [negb orb Z.eqb andb].
    rewrite bool_decide_eq_false_2 by discriminate.
    replace (bits + 1 - 1) with bits by lia.
    rewrite (mask_top_agree _ _ (128 - bits) bits);
      try (replace (128 - bits + bits) with 128 by lia); try lia.
    apply div_pow2_add; lia. }
  rewrite Hc. reflexivity.
Qed.

End Host.

Lemma AddWrap_sum (a b : Z) :
  0 <= a -> 0 <= b -> a + b < 2 ^ 128 -> scenarios.AddWrap a b = a + b.
Proof. intros Ha Hb Hs. unfold scenarios.AddWrap. apply Z.mod_small. lia. Defined.

(** X17 at [100.64.0.0/10], host 1: [100.64.0.1]. *)
Lemma Host_ipv4_witness :
  Host scenarios.AddWrap (PrefixFrom (AddrFrom4_be scenarios.cgnat) 10) 1 =
  (AddrFrom4_be (scenarios.cgnat + 1), None).
Proof.
  rewrite (Host_ipv4 scenarios.AddWrap AddWrap_sum scenarios.cgnat 10 1).
  - reflexivity.
  - unfold scenarios.cgnat. lia.
  - lia.
  - lia.
  - unfold scenarios.cgnat. lia.
Defined.

(** X18 at [::/0], host 1. *)
Lemma Host_ipv6_zero_upper_half_witness :
  Host scenarios.AddWrap (PrefixFrom (AddrFrom16 0) 0) 1 =
  (AddrZero, Some ErrHostNumberOutOfRange).
Proof.
  apply (Host_ipv6_zero_upper_half scenarios.AddWrap AddWrap_sum 0 0 1); lia.
Defined.

(** X19 at [fd00::/48], host 1: [fd00::1]. *)
Lemma Host_ipv6_witness :
  Host scenarios.AddWrap (PrefixFrom (AddrFrom16 scenarios.ula) 48) 1 =
  (AddrFrom16 (scenarios.ula + 1), None).
Proof.
  rewrite (Host_ipv6 scenarios.AddWrap AddWrap_sum scenarios.ula 48 1).
  - reflexivity.
  - vm_compute. discriminate.
  - lia.
  - vm_compute. reflexivity.
  - lia.
Defined.

End cidr_props.

(** ** Package waitpool: the counter of items in use *)

Module waitpool_props.
Import waitpool.

Lemma int32_small (x : Z) : - 2 ^ 31 <= x < 2 ^ 31 -> int32 x = x.
Proof.
  intros Hx. unfold int32. rewrite Z.mod_small; [lia |].
  change (2 ^ 32) with (2 ^ 31 + 2 ^ 31). lia.
Qed.

Lemma uint32_small (x : Z) : 0 <= x < 2 ^ 32 -> uint32 x = x.
Proof. intros Hx. unfold uint32. now apply Z.mod_small. Qed.

Lemma uint32_negative (x : Z) : - 2 ^ 32 <= x < 0 -> uint32 x = x + 2 ^ 32.
Proof.
  intros Hx. unfold uint32.
  rewrite <- (Z.mod_add x 1 (2 ^ 32)) by lia.
  rewrite Z.mul_1_l. apply Z.mod_small. lia.
Qed.

Lemma run_paired (calls : list call) :
  forall p p' : WaitPool,
    0 < max p < 2 ^ 31 ->
    0 <= count p <= max p ->
    run calls p = Some p' ->
    paired (count p) calls = true ->
    max p' = max p /\ count p' = count p + in_use calls /\
    0 <= count p' <= max p.
Proof.
  induction calls as [| c calls IH]; intros p p' Hm Hc Hrun Hp; simpl in *.
  - injection Hrun as <-. lia.
  - destruct c.
    + unfold Get in Hrun.
      destruct (Z.eqb_spec (max p) 0) as [E | _]; [lia |].
      rewrite uint32_small in Hrun
        by (change (2 ^ 32) with (2 ^ 31 + 2 ^ 31); lia).
      destruct (Z.leb_spec (max p) (count p)) as [| Hlt]; [discriminate |].
      rewrite int32_small in Hrun by lia.
      apply IH in Hrun; simpl in *; try lia. exact Hp.
    + apply andb_prop in Hp as [Hpos Hp]. apply Z.ltb_lt in Hpos.
      unfold Put in Hrun.
      destruct (Z.eqb_spec (max p) 0) as [E | _]; [lia |].
      rewrite int32_small in Hrun by lia.
      apply IH in Hrun; simpl in *; try lia. exact Hp.
Qed.

(** X20.  A pool bounded by [0 < m < 2^31]: after any sequence of calls
    that have gone through and in which every [Put] returns an item
    handed out before, [Count] is the number of [Get]s less the number
    of [Put]s and lies between 0 and [m], and the next [Get] has to wait
    exactly when [Count] has reached [m]. *)
Theorem WaitPool_bounded (m : Z) (calls : list call) (p : WaitPool) :
  0 < m < 2 ^ 31 ->
  run calls (New m) = Some p ->
  paired 0 calls = true ->
  Count p = in_use calls /\
  0 <= Count p <= m /\
  (Get p = None <-> Count p = m).
Proof.
  intros Hm Hrun Hp.
  destruct (run_paired calls (New m) p) as (Emax & Ecount & Hrange);
    simpl; try assumption; try lia.
  simpl in *. unfold Count. split; [lia |]. split; [assumption |].
  unfold Get. rewrite Emax.
  destruct (Z.eqb_spec m 0) as [E | _]; [lia |].
  rewrite uint32_small by (change (2 ^ 32) with (2 ^ 31 + 2 ^ 31); lia).
  destruct (Z.leb_spec m (count p)); split; intros; try lia; try discriminate.
  reflexivity.
Qed.

(** X21.  A pool created with [max = 0] is unbounded and does not count:
    whatever calls are made, in whatever order, every [Get] goes through
    at once and [Count] stays 0. *)
Theorem WaitPool_unbounded (calls : list call) :
  exists p, run calls (New 0) = Some p /\ Count p = 0.
Proof.
  exists (New 0). split; [| reflexivity].
  induction calls as [| [] calls IH]; simpl; auto.
Qed.

Lemma run_puts (k : nat) :
  forall p : WaitPool,
    max p <> 0 ->
    - 2 ^ 31 <= count p - Z.of_nat k -> count p <= 0 ->
    run (repeat CallPut k) p = Some (mkPool (count p - Z.of_nat k) (max p)).
Proof.
  induction k as [| k IH]; intros p Hm Hlow Hc.
  - simpl. rewrite Z.sub_0_r. now destruct p.
  - cbn [repeat run]. unfold Put.
    destruct (Z.eqb_spec (max p) 0) as [E | _]; [congruence |].
    rewrite int32_small by lia.
    rewrite IH; simpl; try lia; try assumption.
    do 2 f_equal. lia.
Qed.

Lemma run_app (c1 c2 : list call) (p : WaitPool) :
  run (c1 ++ c2) p =
  match run c1 p with
  | Some p' => run c2 p'
  | None => None
  end.
Proof.
  revert p. induction c1 as [| [] c1 IH]; intros p; simpl; auto.
  destruct (Get p); auto.
Qed.

(** X22.  [Put] on a bounded pool does not check that an item is out:
    after [k >= 1] calls of [Put] on a fresh pool the counter is [-k],
    which reads as [2^32 - k] in the comparison of [Get], so the next
    [Get] has to wait although no item is in use (as long as
    [k <= 2^32 - max]). *)
Theorem WaitPool_stray_Put (m : Z) (k : nat) :
  0 < m ->
  (0 < k)%nat ->
  Z.of_nat k <= 2 ^ 31 ->
  Z.of_nat k <= 2 ^ 32 - m ->
  run (repeat CallPut k) (New m) = Some (mkPool (- Z.of_nat k) m) /\
  run (repeat CallPut k ++ [CallGet]) (New m) = None.
Proof.
  intros Hm Hk Hk31 Hk32.
  assert (Hputs : run (repeat CallPut k) (New m) = Some (mkPool (- Z.of_nat k) m)).
  { rewrite run_puts; simpl; try lia. reflexivity. }
  split; [assumption |].
  rewrite run_app, Hputs. simpl. unfold Get. simpl.
  destruct (Z.eqb_spec m 0) as [E | _]; [lia |].
  rewrite uint32_negative by lia.
  destruct (Z.leb_spec m (- Z.of_nat k + 2 ^ 32)); [reflexivity | lia].
Qed.

(** X20 at a pool of ten: ten [Get]s go through and the eleventh has
    to wait. *)
Lemma WaitPool_bounded_witness :
  Count (mkPool 10 10) = in_use (repeat CallGet 10) /\
  0 <= Count (mkPool 10 10) <= 10 /\
  (Get (mkPool 10 10) = None <-> Count (mkPool 10 10) = 10).
Proof.
  apply (WaitPool_bounded 10 (repeat CallGet 10) (mkPool 10 10)).
  - simpl. lia.
  - vm_compute. reflexivity.
  - reflexivity.
Defined.

(** X22 at one stray [Put] on a fresh pool of ten. *)
Lemma WaitPool_stray_Put_witness :
  run (repeat CallPut 1) (New 10) = Some (mkPool (- Z.of_nat 1) 10) /\
  run (repeat CallPut 1 ++ [CallGet]) (New 10) = None.
Proof.
  apply (WaitPool_stray_Put 10 1).
  - lia.
  - lia.
  - simpl. lia.
  - simpl. lia.
Defined.

End waitpool_props.
